(** * mach-nix: the overlay generator

    A shallow embedding of [mach_nix/generators/overlay_generator.py]
    (class [OverlaysGenerator]) and the properties of the text it
    generates.

    Python [str] values are modelled as [string]; one [ascii] stands for one
    code point below 256.  Exceptions are modelled by the [result] type: the
    only exception the generator itself can raise is the [KeyError] of a
    dictionary lookup. *)

From Stdlib Require Import List String Ascii Bool Arith NArith Lia.
From Stdlib Require Import Permutation Sorted.
Import ListNotations.
Open Scope string_scope.

(** ** Python built-ins on strings *)

Module PyStr.

Definition chr (n : nat) : string := String (ascii_of_nat n) EmptyString.

(** The newline and the double quote. *)
Definition nl : string := chr 10.
Definition dq : string := chr 34.

(** [' ' * n] *)
Fixpoint spaces (n : nat) : string :=
  match n with
  | O => ""
  | S k => String " " (spaces k)
  end.

(** The line boundaries of [str.splitlines]: \n \v \f \r \x1c \x1d \x1e \x85. *)
Definition is_linebreak (c : ascii) : bool :=
  let n := nat_of_ascii c in
  Nat.eqb n 10 || Nat.eqb n 11 || Nat.eqb n 12 || Nat.eqb n 13
  || Nat.eqb n 28 || Nat.eqb n 29 || Nat.eqb n 30 || Nat.eqb n 133.

(** [str.isspace] on one character: \t \n \v \f \r \x1c..\x1f, the space,
    \x85 and \xa0. *)
Definition isspace (c : ascii) : bool :=
  let n := nat_of_ascii c in
  is_linebreak c || Nat.eqb n 9 || Nat.eqb n 31 || Nat.eqb n 32 || Nat.eqb n 160.

Definition starts_with_nl (s : string) : bool :=
  match s with
  | String c _ => Nat.eqb (nat_of_ascii c) 10
  | EmptyString => false
  end.

(** Does the line end at [c], when [rest] follows?  A carriage return that a
    newline follows is not the end: the pair is one boundary. *)
Definition ends_line (c : ascii) (rest : string) : bool :=
  is_linebreak c && negb (Nat.eqb (nat_of_ascii c) 13 && starts_with_nl rest).

(** [text.splitlines(keepends=True)] *)
Fixpoint splitlines (s : string) : list string :=
  match s with
  | EmptyString => []
  | String c rest =>
      if ends_line c rest then String c EmptyString :: splitlines rest
      else match splitlines rest with
           | [] => [String c EmptyString]
           | l :: ls => String c l :: ls
           end
  end.

(** [s[n:]] *)
Fixpoint slice_from (n : nat) (s : string) : string :=
  match n, s with
  | O, _ => s
  | S _, EmptyString => EmptyString
  | S k, String _ rest => slice_from k rest
  end.

(** [sep.join(ls)] is [String.concat sep ls]. *)
Definition join (sep : string) (ls : list string) : string :=
  String.concat sep ls.

(** [s.lstrip()], [s.rstrip()] and [s.strip()], without argument. *)
Fixpoint lstrip (s : string) : string :=
  match s with
  | EmptyString => EmptyString
  | String c rest => if isspace c then lstrip rest else s
  end.

Fixpoint rstrip (s : string) : string :=
  match s with
  | EmptyString => EmptyString
  | String c rest =>
      match rstrip rest with
      | EmptyString => if isspace c then EmptyString else String c EmptyString
      | r => String c r
      end
  end.

Definition strip (s : string) : string := lstrip (rstrip s).

(** The truth value of a string: it is not empty. *)
Definition truthy (s : string) : bool :=
  match s with
  | EmptyString => false
  | String _ _ => true
  end.

(** Every character of [s] satisfies [p]. *)
Fixpoint all_chars (p : ascii -> bool) (s : string) : bool :=
  match s with
  | EmptyString => true
  | String c rest => p c && all_chars p rest
  end.

(** [sorted(l, key=key)].  Python's sort is stable and a stable sort has one
    result: the one of insertion sort, where an element is put before the
    first element of the sorted rest whose key is not smaller. *)
Section Sorted.
Context {A : Type} (key : A -> string).

Fixpoint insert_sorted (x : A) (l : list A) : list A :=
  match l with
  | [] => [x]
  | y :: l' =>
      if String.leb (key x) (key y) then x :: l
      else y :: insert_sorted x l'
  end.

Definition sorted_by (l : list A) : list A :=
  fold_right insert_sorted [] l.

End Sorted.

(** [sorted(l)] on strings. *)
Definition sorted (l : list string) : list string := sorted_by (fun s => s) l.

End PyStr.

Import PyStr.

(** ** Python sets of strings

    A set is a list without repetition; only membership and the sorted
    listing of a set are observed by the generator. *)

Definition pyset := list string.

Definition set_mem (x : string) (s : pyset) : bool :=
  existsb (String.eqb x) s.

(** [set(l)], and the set comprehension over the elements of [l]. *)
Definition set_of_list (l : list string) : pyset := nodup string_dec l.

(** [a - b] *)
Definition set_diff (a b : pyset) : pyset :=
  filter (fun x => negb (set_mem x b)) a.

(** ** Exceptions *)

Inductive result (A : Type) : Type :=
| Ok (a : A)
| KeyError (key : string).

Arguments Ok {A} a.
Arguments KeyError {A} key.

Definition bind {A B : Type} (c : result A) (k : A -> result B) : result B :=
  match c with
  | Ok a => k a
  | KeyError key => KeyError key
  end.

Notation "x <- c ;; k" := (bind c (fun x => k))
  (at level 61, c at next level, right associativity).

(** A list comprehension whose element expression can raise. *)
Fixpoint mapM {A B : Type} (f : A -> result B) (l : list A) : result (list B) :=
  match l with
  | [] => Ok []
  | x :: l' => y <- f x ;; ys <- mapM f l' ;; Ok (y :: ys)
  end.

(** A [for] loop that updates one variable and whose body can raise. *)
Fixpoint foldM {A S : Type} (body : S -> A -> result S) (l : list A) (s : S)
  : result S :=
  match l with
  | [] => Ok s
  | x :: l' => s' <- body s x ;; foldM body l' s'
  end.

(** The text a run produced, if it produced one. *)
Definition output {A : Type} (r : result A) : option A :=
  match r with
  | Ok a => Some a
  | KeyError _ => None
  end.

(** ** Ordered dictionaries with string keys *)

Module Dict.

Definition t (V : Type) := list (string * V).

(** [d[k] = v]: a key that is present keeps its place. *)
Fixpoint set {V : Type} (d : t V) (k : string) (v : V) : t V :=
  match d with
  | [] => [(k, v)]
  | (k', v') :: d' =>
      if String.eqb k k' then (k, v) :: d' else (k', v') :: set d' k v
  end.

(** [OrderedDict(items)] *)
Definition of_items {V : Type} (items : list (string * V)) : t V :=
  fold_left (fun d kv => set d (fst kv) (snd kv)) items [].

(** [d[k]], which raises [KeyError(k)] when [k] is not a key. *)
Fixpoint get {V : Type} (d : t V) (k : string) : result V :=
  match d with
  | [] => KeyError k
  | (k', v) :: d' => if String.eqb k k' then Ok v else get d' k
  end.

Definition keys {V : Type} (d : t V) : list string := map fst d.
Definition values {V : Type} (d : t V) : list V := map snd d.
Definition items {V : Type} (d : t V) : list (string * V) := d.

End Dict.

(** ** The data model *)

(** Modelled from the spec: the declaration of [ResolvedPkg]
    ([mach_nix.resolver]) is not part of the sources; the fields are those
    the generator reads.  [ver] is the version as the f-strings print it, and
    the two input collections are listed in the order in which the
    generator iterates over them. *)
Record ResolvedPkg : Type := {
  name : string;
  ver : string;
  build_inputs : list string;
  prop_build_inputs : list string;
  is_root : bool
}.

(** Modelled from the spec: a candidate of the index, of which the generator
    reads the [nix_key]. *)
Record NixpkgsPyPkg : Type := {
  nix_key : string
}.

(** Modelled from the spec: the index [NixpkgsDirectory]
    ([mach_nix.data.data_interface]) is not part of the sources.  It is a
    read-only oracle with four queries; [exists_ n None] is [exists(name)]
    and [exists_ n (Some v)] is [exists(name, ver)]. *)
Record NixpkgsDirectory : Type := {
  exists_ : string -> option string -> bool;
  find_best_nixpkgs_candidate : string -> string -> string;
  get_all_candidates : string -> list NixpkgsPyPkg;
  has_multiple_candidates : string -> bool
}.

(** The attributes [__init__] sets. *)
Record OverlaysGenerator : Type := {
  nixpkgs : NixpkgsDirectory;
  disable_checks : bool;
  prefer_nixpkgs : bool;
  nixpkgs_commit : string;
  nixpkgs_tarball_sha256 : string;
  pypi_fetcher_commit : string;
  pypi_fetcher_tarball_sha256 : string;
  py_ver_nix : string
}.

(** ** The generator *)

Definition unindent (text : string) (remove : nat) : string :=
  join "" (map (fun l => slice_from remove l) (splitlines text)).

Section Methods.

Variable self : OverlaysGenerator.

Definition _gen_imports : string :=
  let out :=
    nl ++
    "            let" ++ nl ++
    "              fetchPypiSrc = builtins.fetchTarball {" ++ nl ++
    "                name = " ++ dq ++ "nix-pypi-fetcher" ++ dq ++ ";" ++ nl ++
    "                url = " ++ dq ++ "https://github.com/DavHau/nix-pypi-fetcher/tarball/" ++ pypi_fetcher_commit self ++ dq ++ ";" ++ nl ++
    "                # Hash obtained using `nix-prefetch-url --unpack <url>`" ++ nl ++
    "                sha256 = " ++ dq ++ pypi_fetcher_tarball_sha256 self ++ dq ++ ";" ++ nl ++
    "              };" ++ nl ++
    "              fetchPypi = import (fetchPypiSrc);" ++ nl ++
    "              nixpkgs_src = builtins.fetchTarball {" ++ nl ++
    "                name = " ++ dq ++ "nixpkgs" ++ dq ++ ";" ++ nl ++
    "                url = " ++ dq ++ "https://github.com/nixos/nixpkgs/tarball/" ++ nixpkgs_commit self ++ dq ++ ";" ++ nl ++
    "                sha256 = " ++ dq ++ nixpkgs_tarball_sha256 self ++ dq ++ ";" ++ nl ++
    "              };" ++ nl ++
    "              pkgs = import nixpkgs_src { config = {}; };" ++ nl ++
    "              python = pkgs." ++ py_ver_nix self ++ ";" ++ nl ++
    "            " in
  unindent out 12.

Definition _gen_build_inputs (build_inputs_local build_inputs_nixpkgs : pyset)
  : string :=
  join " " (sorted build_inputs_local) ++ " " ++
  join " " (map (fun b => "python-self." ++ b) (sorted build_inputs_nixpkgs)).

Definition _gen_prop_build_inputs
  (prop_build_inputs_local prop_build_inputs_nixpkgs : pyset) : string :=
  join " " (sorted prop_build_inputs_local) ++ " " ++
  join " " (map (fun b => "python-self." ++ b) (sorted prop_build_inputs_nixpkgs)).

Definition _gen_overrideAttrs
  (name ver nix_name build_inputs_str prop_build_inputs_str : string) : string :=
  let out :=
    nl ++
    "            " ++ nix_name ++ " = python-super." ++ nix_name ++ ".overrideAttrs ( oldAttrs: {" ++ nl ++
    "              name = " ++ dq ++ name ++ "-" ++ ver ++ dq ++ ";" ++ nl ++
    "              src = fetchPypi " ++ dq ++ name ++ dq ++ " " ++ dq ++ ver ++ dq ++ ";" in
  let out :=
    if truthy build_inputs_str then
      out ++ nl ++
      "              buildInputs = oldAttrs.buildInputs ++ [ " ++ build_inputs_str ++ " ];"
    else out in
  let out :=
    if truthy prop_build_inputs_str then
      out ++ nl ++
      "              propagatedBuildInputs = oldAttrs.propagatedBuildInputs ++ [ " ++ prop_build_inputs_str ++ " ];"
    else out in
  let out :=
    if disable_checks self then
      out ++ nl ++
      "              doCheck = false;" ++ nl ++
      "              doInstallCheck = false;"
    else out in
  let out := out ++ nl ++
    "            });" ++ nl in
  unindent out 4.

Definition _gen_builPythonPackage
  (name ver build_inputs_str prop_build_inputs_str : string) : string :=
  let out :=
    nl ++
    "            " ++ name ++ " = python.pkgs.buildPythonPackage {" ++ nl ++
    "              name = " ++ dq ++ name ++ "-" ++ ver ++ dq ++ ";" ++ nl ++
    "              src = fetchPypi " ++ dq ++ name ++ dq ++ " " ++ dq ++ ver ++ dq ++ ";" in
  let out :=
    if truthy (strip build_inputs_str) then
      out ++ nl ++
      "              buildInputs = [ " ++ build_inputs_str ++ " ];"
    else out in
  let out :=
    if truthy (strip prop_build_inputs_str) then
      out ++ nl ++
      "              propagatedBuildInputs = [ " ++ prop_build_inputs_str ++ " ];"
    else out in
  let out :=
    if disable_checks self then
      out ++ nl ++
      "              doCheck = false;" ++ nl ++
      "              doInstallCheck = false;"
    else out in
  let out := out ++ nl ++
    "            };" ++ nl in
  unindent out 4.

Definition _gen_unify_nixpkgs_keys (master_key : string)
  (nixpkgs_keys : list string) : string :=
  fold_left
    (fun out key => out ++ "        " ++ key ++ " = " ++ master_key ++ ";" ++ nl)
    nixpkgs_keys "".

Definition _get_ref_name (name ver : string) : string :=
  if exists_ (nixpkgs self) name None
  then find_best_nixpkgs_candidate (nixpkgs self) name ver
  else name.

Definition _needs_overlay (name ver : string) : bool :=
  negb (exists_ (nixpkgs self) name (Some ver))
  || has_multiple_candidates (nixpkgs self) name.

(** The body of the loop of [_gen_overlays], for a package that is in
    [overlay_keys]: the text it appends to [out]. *)
Definition _gen_overlays_pkg (pkgs : Dict.t ResolvedPkg) (overlay_keys : pyset)
  (pkg : ResolvedPkg) : result string :=
  _build_inputs <-
    mapM (fun b => p <- Dict.get pkgs b ;; Ok (_get_ref_name b (ver p)))
         (build_inputs pkg) ;;
  let build_inputs_local :=
    set_of_list (filter (fun b => set_mem b overlay_keys) _build_inputs) in
  let build_inputs_nixpkgs :=
    set_diff (set_of_list _build_inputs) build_inputs_local in
  _prop_build_inputs <-
    mapM (fun b => p <- Dict.get pkgs b ;; Ok (_get_ref_name b (ver p)))
         (prop_build_inputs pkg) ;;
  let prop_build_inputs_local :=
    set_of_list (filter (fun b => set_mem b overlay_keys) _prop_build_inputs) in
  let prop_build_inputs_nixpkgs :=
    set_diff (set_of_list _prop_build_inputs) prop_build_inputs_local in
  let build_inputs_str :=
    strip (_gen_build_inputs build_inputs_local build_inputs_nixpkgs) in
  let prop_build_inputs_str :=
    strip (_gen_prop_build_inputs prop_build_inputs_local
                                  prop_build_inputs_nixpkgs) in
  if exists_ (nixpkgs self) (name pkg) None then
    let nix_name :=
      find_best_nixpkgs_candidate (nixpkgs self) (name pkg) (ver pkg) in
    let out1 :=
      _gen_overrideAttrs (name pkg) (ver pkg) nix_name
                         build_inputs_str prop_build_inputs_str in
    let master_key := _get_ref_name (name pkg) (ver pkg) in
    let other_names :=
      filter (fun k => negb (String.eqb k master_key))
             (map nix_key (get_all_candidates (nixpkgs self) (name pkg))) in
    Ok (out1 ++ _gen_unify_nixpkgs_keys master_key (sorted other_names))
  else
    Ok (_gen_builPythonPackage (name pkg) (ver pkg)
                               build_inputs_str prop_build_inputs_str).

Definition _gen_overlays (pkgs : Dict.t ResolvedPkg) (overlay_keys : pyset)
  : result string :=
  let out :=
    nl ++
    "            overlay = self: super: {" ++ nl ++
    "              " ++ py_ver_nix self ++ " = super." ++ py_ver_nix self ++ ".override {" ++ nl ++
    "                packageOverrides = python-self: python-super: rec {" ++ nl ++
    "          " in
  let out := unindent out 10 in
  out <-
    foldM (fun out pkg =>
             if negb (set_mem (name pkg) overlay_keys) then Ok out
             else
               block <- _gen_overlays_pkg pkgs overlay_keys pkg ;;
               Ok (out ++ block))
          (Dict.values pkgs) out ;;
  let end_overlay_section :=
    nl ++
    "                };" ++ nl ++
    "              };" ++ nl ++
    "            };" ++ nl ++
    "          " in
  Ok (out ++ unindent end_overlay_section 10).

Definition _gen_python_env (pkgs : Dict.t ResolvedPkg) : result string :=
  let overlay_keys :=
    set_of_list
      (map name
           (filter (fun p => _needs_overlay (name p) (ver p))
                   (Dict.values pkgs))) in
  overlays <- _gen_overlays pkgs overlay_keys ;;
  let out := _gen_imports ++ overlays in
  lines <-
    mapM (fun item : string * ResolvedPkg =>
            p <- Dict.get pkgs (fst item) ;;
            Ok (_get_ref_name (fst item) (ver p) ++ nl ++ spaces 14))
         (filter (fun item => is_root (snd item)) (Dict.items pkgs)) ;;
  let pkg_names := join "" lines in
  let python_with_packages :=
    nl ++
    "            in" ++ nl ++
    "            " ++ nl ++
    "            with import nixpkgs_src { overlays = [ overlay ]; };" ++ nl ++
    "            " ++ nl ++
    "            " ++ py_ver_nix self ++ ".withPackages (ps: with ps; [" ++ nl ++
    "              " ++ rstrip pkg_names ++ nl ++
    "            ])" ++ nl ++
    "            " in
  Ok (out ++ unindent python_with_packages 12).

(** [pkgs] is the answer of the resolver, an external collaborator, to
    [self.resolver.resolve(reqs, prefer_nixpkgs=self.prefer_nixpkgs)]. *)
Definition generate (pkgs : list ResolvedPkg) : result string :=
  let pkgs :=
    Dict.of_items
      (sorted_by (fun x : string * ResolvedPkg => name (snd x))
                 (map (fun p => (name p, p)) pkgs)) in
  _gen_python_env pkgs.

End Methods.

(** ** Sample inputs *)

Module Samples.

Definition mk_index (known : list (string * list (string * string)))
  : NixpkgsDirectory := {|
  exists_ := fun n ov =>
    match find (fun e => String.eqb (fst e) n) known with
    | None => false
    | Some (_, cands) =>
        match ov with
        | None => true
        | Some v => existsb (fun c => String.eqb (snd c) v) cands
        end
    end;
  find_best_nixpkgs_candidate := fun n v =>
    match find (fun e => String.eqb (fst e) n) known with
    | None => n
    | Some (_, cands) =>
        match find (fun c => String.eqb (snd c) v) cands with
        | Some c => fst c
        | None => match cands with c :: _ => fst c | [] => n end
        end
    end;
  get_all_candidates := fun n =>
    match find (fun e => String.eqb (fst e) n) known with
    | None => []
    | Some (_, cands) => map (fun c => {| nix_key := fst c |}) cands
    end;
  has_multiple_candidates := fun n =>
    match find (fun e => String.eqb (fst e) n) known with
    | None => false
    | Some (_, cands) => Nat.ltb 1 (List.length cands)
    end
|}.

Definition gen (idx : NixpkgsDirectory) (dc : bool) : OverlaysGenerator := {|
  nixpkgs := idx;
  disable_checks := dc;
  prefer_nixpkgs := true;
  nixpkgs_commit := "c0ffee";
  nixpkgs_tarball_sha256 := "sha-nixpkgs";
  pypi_fetcher_commit := "deadbeef";
  pypi_fetcher_tarball_sha256 := "sha-fetcher";
  py_ver_nix := "python37"
|}.

Definition pkg (n v : string) (bi pbi : list string) (root : bool) : ResolvedPkg :=
  {| name := n; ver := v; build_inputs := bi; prop_build_inputs := pbi;
     is_root := root |}.

End Samples.

Import Samples.

(** ** The notions of the statements *)

(** A string without line boundary, and a token: a string that is not empty
    and has no white space. *)
Definition no_linebreak (s : string) : bool :=
  all_chars (fun c => negb (is_linebreak c)) s.

Definition no_space (s : string) : bool :=
  all_chars (fun c => negb (isspace c)) s.

Definition is_token (s : string) : bool := truthy s && no_space s.

(** [unindent] as one pass over the text: [cut n k s] removes the first [k]
    characters of the first line of [s] and the first [n] characters of
    every later line. *)
Fixpoint cut (n k : nat) (s : string) : string :=
  match s with
  | EmptyString => EmptyString
  | String c rest =>
      let k' := if ends_line c rest then n else Nat.pred k in
      match k with
      | O => String c (cut n k' rest)
      | S _ => cut n k' rest
      end
  end.

(** The same on a text that is split into its lines. *)
Definition slices (n k : nat) (ls : list string) : string :=
  match ls with
  | [] => ""
  | l :: ls' => slice_from k l ++ join "" (map (slice_from n) ls')
  end.

(** The text whose lines are [ls], each ended by a newline. *)
Definition unlines (ls : list string) : string :=
  join "" (map (fun l => l ++ nl) ls).

(** The lines of an override block, after the words of the design: the key,
    the name and version label, the source, the two input lists when they
    are not empty, the two directives when checks are disabled. *)
Definition override_lines (nix_name name ver bi pbi : string) (dc : bool)
  : list string :=
  [ "        " ++ nix_name ++ " = python-super." ++ nix_name ++ ".overrideAttrs ( oldAttrs: {";
    "          name = " ++ dq ++ name ++ "-" ++ ver ++ dq ++ ";";
    "          src = fetchPypi " ++ dq ++ name ++ dq ++ " " ++ dq ++ ver ++ dq ++ ";" ]
  ++ (if truthy bi
      then ["          buildInputs = oldAttrs.buildInputs ++ [ " ++ bi ++ " ];"]
      else [])
  ++ (if truthy pbi
      then ["          propagatedBuildInputs = oldAttrs.propagatedBuildInputs ++ [ " ++ pbi ++ " ];"]
      else [])
  ++ (if dc
      then ["          doCheck = false;"; "          doInstallCheck = false;"]
      else [])
  ++ ["        });"].

(** The lines of a block that builds a package from scratch. *)
Definition fresh_lines (name ver bi pbi : string) (dc : bool) : list string :=
  [ "        " ++ name ++ " = python.pkgs.buildPythonPackage {";
    "          name = " ++ dq ++ name ++ "-" ++ ver ++ dq ++ ";";
    "          src = fetchPypi " ++ dq ++ name ++ dq ++ " " ++ dq ++ ver ++ dq ++ ";" ]
  ++ (if truthy (strip bi)
      then ["          buildInputs = [ " ++ bi ++ " ];"]
      else [])
  ++ (if truthy (strip pbi)
      then ["          propagatedBuildInputs = [ " ++ pbi ++ " ];"]
      else [])
  ++ (if dc
      then ["          doCheck = false;"; "          doInstallCheck = false;"]
      else [])
  ++ ["        };"].

(** The order of the keys of a sort. *)
Definition key_le {A : Type} (key : A -> string) (x y : A) : Prop :=
  String.leb (key x) (key y) = true.

(** The dictionary that lists the packages [l] under their names. *)
Definition pkg_items (l : list ResolvedPkg) : Dict.t ResolvedPkg :=
  map (fun p => (name p, p)) l.

(** The set [overlay_keys] that [_gen_python_env] computes, the packages for
    which the loop of [_gen_overlays] emits a block, in the order of
    emission, and the text it emits for one of them. *)
Definition overlay_keys self (pkgs : list ResolvedPkg) : pyset :=
  set_of_list
    (map name
         (filter (fun p => _needs_overlay self (name p) (ver p))
                 (sorted_by name pkgs))).

Definition overlaid_pkgs self (pkgs : list ResolvedPkg) : list ResolvedPkg :=
  filter (fun p => _needs_overlay self (name p) (ver p)) (sorted_by name pkgs).

Definition emitted self (pkgs : list ResolvedPkg) (p : ResolvedPkg)
  : result string :=
  _gen_overlays_pkg self (pkg_items (sorted_by name pkgs))
                    (overlay_keys self pkgs) p.

(** The first lines and the last lines of the overlay. *)
Definition overlays_header self : string :=
  unlines
    [ "  overlay = self: super: {";
      "    " ++ py_ver_nix self ++ " = super." ++ py_ver_nix self ++ ".override {";
      "      packageOverrides = python-self: python-super: rec {" ].

Definition overlays_footer : string :=
  unlines [ "      };"; "    };"; "  };" ].

(** The reference of a resolved package. *)
Definition ref_of self (p : ResolvedPkg) : string :=
  _get_ref_name self (name p) (ver p).

(** The packages of the environment: the root packages, by name. *)
Definition root_pkgs (pkgs : list ResolvedPkg) : list ResolvedPkg :=
  filter is_root (sorted_by name pkgs).

(** The last part of the output, with one line for each of [refs]. *)
Definition env_lines self (refs : list string) : list string :=
  [ "in";
    "";
    "with import nixpkgs_src { overlays = [ overlay ]; };";
    "";
    py_ver_nix self ++ ".withPackages (ps: with ps; [" ]
  ++ match refs with
     | [] => ["  "]
     | _ => map (fun r => "  " ++ r) refs
     end
  ++ [ "])" ].

(** [s] starts, and ends, with a character that is no white space. *)
Definition starts_tight (s : string) : bool :=
  match s with
  | EmptyString => false
  | String c _ => negb (isspace c)
  end.

Fixpoint ends_tight (s : string) : bool :=
  match s with
  | EmptyString => false
  | String c EmptyString => negb (isspace c)
  | String _ rest => ends_tight rest
  end.

(** The references of an input list, as the block lists them: those that
    are overlay keys first, as they are, then the others with the prefix
    of the index, each part sorted. *)
Definition input_tokens (keys : pyset) (refs : list string) : list string :=
  let local := set_of_list (filter (fun b => set_mem b keys) refs) in
  (sorted local
   ++ map (fun b => ("python-self." ++ b)%string)
          (sorted (set_diff (set_of_list refs) local)))%list.

(** The string the loop of [_gen_overlays] makes of the references [refs]. *)
Definition inputs_str (keys : pyset) (refs : list string) : string :=
  let local := set_of_list (filter (fun b => set_mem b keys) refs) in
  strip (_gen_build_inputs local (set_diff (set_of_list refs) local)).

(** An alias line, and the text of [_gen_unify_nixpkgs_keys]. *)
Definition alias_line (master_key key : string) : string :=
  "        " ++ key ++ " = " ++ master_key ++ ";".

(** The identifiers of the index for [name] other than [master_key], as
    [_gen_overlays] lists them. *)
Definition other_names self (name master_key : string) : list string :=
  sorted
    (filter (fun k => negb (String.eqb k master_key))
            (map nix_key (get_all_candidates (nixpkgs self) name))).

(** The text the loop emits for the package [p], whose inputs are the
    packages [bdeps] and [pdeps]. *)
Definition block_text self (keys : pyset) (p : ResolvedPkg)
  (bdeps pdeps : list ResolvedPkg) : string :=
  let bi := inputs_str keys (map (ref_of self) bdeps) in
  let pbi := inputs_str keys (map (ref_of self) pdeps) in
  if exists_ (nixpkgs self) (name p) None then
    _gen_overrideAttrs self (name p) (ver p) (ref_of self p) bi pbi
    ++ _gen_unify_nixpkgs_keys (ref_of self p)
         (other_names self (name p) (ref_of self p))
  else
    _gen_builPythonPackage self (name p) (ver p) bi pbi.

(** The elements of [l] are pairwise different. *)
Fixpoint nodupb (l : list string) : bool :=
  match l with
  | [] => true
  | x :: l' => negb (set_mem x l') && nodupb l'
  end.

(** The resolved set the generator expects: the names are pairwise
    different, every input is the name of a resolved package, and the
    strings that are put into the text are what they are in practice: names
    and versions without line boundary, references that are tokens. *)
Definition valid_input self (pkgs : list ResolvedPkg) : bool :=
  nodupb (map name pkgs)
  && no_linebreak (py_ver_nix self)
  && forallb
       (fun p =>
          no_linebreak (name p) && no_linebreak (ver p)
          && is_token (ref_of self p)
          && forallb (fun b => set_mem b (map name pkgs)) (build_inputs p)
          && forallb (fun b => set_mem b (map name pkgs)) (prop_build_inputs p))
       pkgs.

(** The resolved package of name [b], and the packages of a list of names. *)
Definition find_pkg (pkgs : list ResolvedPkg) (b : string)
  : option ResolvedPkg :=
  find (fun q => String.eqb (name q) b) pkgs.

Definition deps_of (pkgs : list ResolvedPkg) (bs : list string)
  : list ResolvedPkg :=
  flat_map (fun b => match find_pkg pkgs b with
                     | Some q => [q]
                     | None => []
                     end) bs.

(** The references of the build inputs and of the propagated build inputs
    of [p]. *)
Definition build_refs self (pkgs : list ResolvedPkg) (p : ResolvedPkg)
  : list string :=
  map (ref_of self) (deps_of pkgs (build_inputs p)).

Definition prop_build_refs self (pkgs : list ResolvedPkg) (p : ResolvedPkg)
  : list string :=
  map (ref_of self) (deps_of pkgs (prop_build_inputs p)).

(** The block of the package [p] of the resolved set [pkgs]. *)
Definition block_of self (pkgs : list ResolvedPkg) (p : ResolvedPkg) : string :=
  block_text self (overlay_keys self pkgs) p
             (deps_of pkgs (build_inputs p))
             (deps_of pkgs (prop_build_inputs p)).

(** The whole text. *)
Definition generated_text self (pkgs : list ResolvedPkg) : string :=
  _gen_imports self
  ++ (overlays_header self
      ++ join "" (map (block_of self pkgs) (overlaid_pkgs self pkgs))
      ++ overlays_footer)
  ++ unlines (env_lines self (map (ref_of self) (root_pkgs pkgs))).

(** The two lines that disable the checks. *)
Definition doCheck_line : string := "          doCheck = false;".
Definition doInstallCheck_line : string := "          doInstallCheck = false;".

(** The text of an input list: its tokens, separated by one space. *)
Definition input_list (keys : pyset) (refs : list string) : string :=
  join " " (input_tokens keys refs).

(** Two records of one package: the input sets have the same elements,
    whatever the order in which they are listed. *)
Definition same_pkg (p q : ResolvedPkg) : Prop :=
  name p = name q /\ ver p = ver q /\ is_root p = is_root q
  /\ (forall b, In b (build_inputs p) <-> In b (build_inputs q))
  /\ (forall b, In b (prop_build_inputs p) <-> In b (prop_build_inputs q)).

Definition same_item (x y : string * ResolvedPkg) : Prop :=
  fst x = fst y /\ same_pkg (snd x) (snd y).

(** The first input of [p], build inputs before propagated ones, that is
    not the name of a resolved package. *)
Definition first_missing_input (pkgs : list ResolvedPkg) (p : ResolvedPkg)
  : option string :=
  find (fun b => negb (set_mem b (map name pkgs)))
       (build_inputs p ++ prop_build_inputs p).

(** The first such input of the first package, by name, that needs an
    overlay and has one. *)
Definition first_failure self (pkgs : list ResolvedPkg) : option string :=
  match find (fun p => match first_missing_input pkgs p with
                       | Some _ => true
                       | None => false
                       end)
             (overlaid_pkgs self pkgs) with
  | Some p => first_missing_input pkgs p
  | None => None
  end.

(** The number of spaces a line begins with. *)
Fixpoint leading_spaces (s : string) : nat :=
  match s with
  | EmptyString => 0
  | String c rest =>
      if Ascii.eqb c " " then S (leading_spaces rest) else 0
  end.

(** The first line of an override block, and of a block that builds a
    package from scratch. *)
Definition override_key_line (nix_name : string) : string :=
  "        " ++ nix_name ++ " = python-super." ++ nix_name ++ ".overrideAttrs ( oldAttrs: {".

Definition fresh_key_line (name : string) : string :=
  "        " ++ name ++ " = python.pkgs.buildPythonPackage {".

(** The strings of [__init__] that the imports print have no line
    boundary, and the name of the interpreter is a token. *)
Definition clean_pins self : bool :=
  no_linebreak (pypi_fetcher_commit self)
  && no_linebreak (pypi_fetcher_tarball_sha256 self)
  && no_linebreak (nixpkgs_commit self)
  && no_linebreak (nixpkgs_tarball_sha256 self)
  && is_token (py_ver_nix self).

(** The lines of the imports, the lines that open and that close the
    overlay, the lines of the block of [p], and the lines of the whole
    text. *)
Definition import_lines self : list string :=
  [ "let";
    "  fetchPypiSrc = builtins.fetchTarball {";
    "    name = " ++ dq ++ "nix-pypi-fetcher" ++ dq ++ ";";
    "    url = " ++ dq ++ "https://github.com/DavHau/nix-pypi-fetcher/tarball/" ++ pypi_fetcher_commit self ++ dq ++ ";";
    "    # Hash obtained using `nix-prefetch-url --unpack <url>`";
    "    sha256 = " ++ dq ++ pypi_fetcher_tarball_sha256 self ++ dq ++ ";";
    "  };";
    "  fetchPypi = import (fetchPypiSrc);";
    "  nixpkgs_src = builtins.fetchTarball {";
    "    name = " ++ dq ++ "nixpkgs" ++ dq ++ ";";
    "    url = " ++ dq ++ "https://github.com/nixos/nixpkgs/tarball/" ++ nixpkgs_commit self ++ dq ++ ";";
    "    sha256 = " ++ dq ++ nixpkgs_tarball_sha256 self ++ dq ++ ";";
    "  };";
    "  pkgs = import nixpkgs_src { config = {}; };";
    "  python = pkgs." ++ py_ver_nix self ++ ";" ].

Definition overlay_open self : list string :=
  [ "  overlay = self: super: {";
    "    " ++ py_ver_nix self ++ " = super." ++ py_ver_nix self ++ ".override {";
    "      packageOverrides = python-self: python-super: rec {" ].

Definition overlay_close : list string := [ "      };"; "    };"; "  };" ].

Definition block_lines self (pkgs : list ResolvedPkg) (p : ResolvedPkg)
  : list string :=
  let keys := overlay_keys self pkgs in
  let bi := input_list keys (build_refs self pkgs p) in
  let pbi := input_list keys (prop_build_refs self pkgs p) in
  if exists_ (nixpkgs self) (name p) None
  then (override_lines (ref_of self p) (name p) (ver p) bi pbi
                       (disable_checks self)
        ++ map (alias_line (ref_of self p))
               (other_names self (name p) (ref_of self p)))%list
  else fresh_lines (name p) (ver p) bi pbi (disable_checks self).

Definition output_lines self (pkgs : list ResolvedPkg) : list string :=
  (import_lines self
   ++ overlay_open self
   ++ flat_map (block_lines self pkgs) (overlaid_pkgs self pkgs)
   ++ overlay_close
   ++ env_lines self (map (ref_of self) (root_pkgs pkgs)))%list.

(** ** Scenarios *)

Module Scenarios.

(** An index without any package, and one that knows [G] and [F] under one
    identifier each and [B] under two. *)
Definition empty_index : NixpkgsDirectory := mk_index [].

Definition index : NixpkgsDirectory :=
  mk_index [ ("G", [("G", "1.0")]);
             ("F", [("F", "1.0")]);
             ("B", [("idA", "2.0"); ("idB", "1.0")]) ].

(** A generator that leaves the checks on, and one that disables them. *)
Definition with_checks : OverlaysGenerator := gen index false.
Definition without_checks : OverlaysGenerator := gen index true.

(** (e): [G] with the build input [H], which is not resolved. *)
Definition pkg_g : ResolvedPkg := pkg "G" "1.0" ["H"] [] true.
Definition pkgs_e : list ResolvedPkg := [ pkg_g ].

(** (d): [E] with the build input [F]. *)
Definition pkg_e : ResolvedPkg := pkg "E" "1.0" ["F"] [] true.
Definition pkg_f : ResolvedPkg := pkg "F" "1.0" [] [] false.
Definition pkgs_d : list ResolvedPkg := [ pkg_e; pkg_f ].

(** (b): [B], which the index knows under two identifiers. *)
Definition pkg_b : ResolvedPkg := pkg "B" "2.0" [] [] true.
Definition pkgs_b : list ResolvedPkg := [ pkg_b ].

(** (c): [C] with the propagated build input [D], and a root [A]. *)
Definition pkgs_c : list ResolvedPkg :=
  [ pkg "C" "1.0" [] ["D"] true; pkg "D" "1.0" [] [] false;
    pkg "A" "1.0" [] [] true ].

(** Two listings of one resolved set: the inputs of [C] in two orders, one
    of them with repetitions. *)
Definition pkgs_s : list ResolvedPkg :=
  [ pkg "C" "1.0" ["D"; "A"] ["A"] true; pkg "D" "1.0" [] [] false;
    pkg "A" "1.0" [] [] true ].

Definition pkgs_s' : list ResolvedPkg :=
  [ pkg "C" "1.0" ["A"; "D"; "A"] ["A"; "A"] true; pkg "D" "1.0" [] [] false;
    pkg "A" "1.0" [] [] true ].

(** An index in which the names [P] and [Q] have the same two
    identifiers, and a resolved set with both. *)
Definition shared_index : NixpkgsDirectory :=
  mk_index [ ("P", [("id1", "1.0"); ("id2", "2.0")]);
             ("Q", [("id1", "1.0"); ("id2", "2.0")]) ].

Definition shared_ids : OverlaysGenerator := gen shared_index false.

Definition pkgs_pq : list ResolvedPkg :=
  [ pkg "P" "1.0" [] [] true; pkg "Q" "1.0" [] [] true ].

(** [X] with the build inputs [B], which the index knows under two
    identifiers, and [N], which it does not know. *)
Definition pkg_x : ResolvedPkg := pkg "X" "1" ["B"; "N"] [] true.
Definition pkg_n : ResolvedPkg := pkg "N" "1" [] [] false.
Definition pkgs_x : list ResolvedPkg := [ pkg_x; pkg_b; pkg_n ].

End Scenarios.

Import Scenarios.

(** * Lemmas *)

(** ** Strings: concatenation and the characters of a string *)

Lemma append_nil_r (s : string) : s ++ "" = s.
Proof. induction s as [|c s IH]; simpl; [reflexivity | now rewrite IH]. Qed.

Lemma append_assoc (a b c : string) : (a ++ b) ++ c = a ++ (b ++ c).
Proof. induction a as [|x a IH]; simpl; [reflexivity | now rewrite IH]. Qed.

Lemma length_append (a b : string) :
  String.length (a ++ b) = String.length a + String.length b.
Proof. induction a as [|x a IH]; simpl; [reflexivity | now rewrite IH]. Qed.

Lemma all_chars_app (p : ascii -> bool) (a b : string) :
  all_chars p (a ++ b) = all_chars p a && all_chars p b.
Proof.
  induction a as [|x a IH]; simpl; [reflexivity |].
  now rewrite IH, andb_assoc.
Qed.

Lemma no_space_no_linebreak (s : string) :
  no_space s = true -> no_linebreak s = true.
Proof.
  unfold no_space, no_linebreak.
  induction s as [|c s IH]; simpl; [reflexivity |].
  intros H. apply andb_true_iff in H as [Hc Hs].
  rewrite (IH Hs), andb_true_r.
  unfold isspace in Hc. rewrite !negb_orb in Hc.
  repeat (apply andb_true_iff in Hc as [Hc _]). exact Hc.
Qed.

Lemma is_token_no_space (s : string) : is_token s = true -> no_space s = true.
Proof. unfold is_token. intros H. now apply andb_true_iff in H. Qed.

Lemma is_token_no_linebreak (s : string) :
  is_token s = true -> no_linebreak s = true.
Proof. intros H. now apply no_space_no_linebreak, is_token_no_space. Qed.

Lemma no_linebreak_app (a b : string) :
  no_linebreak (a ++ b) = no_linebreak a && no_linebreak b.
Proof. apply all_chars_app. Qed.

(** ** [unindent] as one pass over the text *)

Lemma join_nil_cons (l : string) (ls : list string) :
  join "" (l :: ls) = l ++ join "" ls.
Proof.
  unfold join. destruct ls as [|l' ls]; simpl.
  - now rewrite append_nil_r.
  - reflexivity.
Qed.

Lemma slices_same (n : nat) (ls : list string) :
  slices n n ls = join "" (map (slice_from n) ls).
Proof.
  destruct ls as [|l ls]; [reflexivity |].
  unfold slices. cbn [map]. now rewrite join_nil_cons.
Qed.

Lemma slice_from_nil (k : nat) : slice_from k "" = "".
Proof. now destruct k. Qed.

Lemma cut_slices (n : nat) (s : string) :
  forall k, cut n k s = slices n k (splitlines s).
Proof.
  induction s as [|c rest IH]; intros k; simpl; [reflexivity |].
  destruct (ends_line c rest).
  - rewrite IH, slices_same. simpl.
    destruct k; simpl; [reflexivity | now rewrite slice_from_nil].
  - rewrite IH. destruct (splitlines rest) as [|l ls]; simpl.
    + destruct k; simpl; [reflexivity | now rewrite slice_from_nil].
    + destruct k; reflexivity.
Qed.

Lemma unindent_cut (text : string) (remove : nat) :
  unindent text remove = cut remove remove text.
Proof. unfold unindent. now rewrite cut_slices, slices_same. Qed.

Lemma cut_no_linebreak (n : nat) (t rest : string) :
  no_linebreak t = true ->
  forall k, cut n k (t ++ rest)
            = slice_from k t ++ cut n (k - String.length t) rest.
Proof.
  unfold no_linebreak.
  induction t as [|c t IH]; simpl; intros H k.
  - now rewrite slice_from_nil, Nat.sub_0_r.
  - apply andb_true_iff in H as [Hc Ht].
    unfold ends_line. apply negb_true_iff in Hc. rewrite Hc. simpl.
    destruct k as [|k]; simpl.
    + now rewrite (IH Ht 0).
    + now rewrite (IH Ht k).
Qed.

Lemma cut_token (n : nat) (t rest : string) :
  no_linebreak t = true -> cut n 0 (t ++ rest) = t ++ cut n 0 rest.
Proof. intros H. now rewrite (cut_no_linebreak n t rest H 0). Qed.

(** ** The text of the blocks, line by line *)

Lemma unlines_cons (l : string) (ls : list string) :
  unlines (l :: ls) = l ++ nl ++ unlines ls.
Proof. unfold unlines. cbn [map]. now rewrite join_nil_cons, append_assoc. Qed.

Lemma unlines_app (ls1 ls2 : list string) :
  unlines (ls1 ++ ls2) = unlines ls1 ++ unlines ls2.
Proof.
  induction ls1 as [|l ls1 IH]; [reflexivity |].
  cbn [app]. now rewrite !unlines_cons, IH, !append_assoc.
Qed.

Lemma cut_newline (n k : nat) (rest : string) :
  cut n k (nl ++ rest)
  = match k with O => nl ++ cut n n rest | S _ => cut n n rest end.
Proof. destruct k; reflexivity. Qed.

Lemma no_linebreak_spaces (n : nat) : no_linebreak (spaces n) = true.
Proof. induction n as [|n IH]; [reflexivity | exact IH]. Qed.

Lemma length_spaces (n : nat) : String.length (spaces n) = n.
Proof. induction n as [|n IH]; simpl; [reflexivity | now rewrite IH]. Qed.

Lemma slice_from_spaces (n : nat) : slice_from n (spaces n) = "".
Proof. induction n as [|n IH]; [reflexivity | exact IH]. Qed.

(** Unindenting by [n] a text whose lines are indented by [n] spaces. *)
Lemma cut_indented_lines (n : nat) (ls : list string) (rest : string) :
  Forall (fun l => no_linebreak l = true) ls ->
  cut n n (unlines (map (fun l => spaces n ++ l) ls) ++ rest)
  = unlines ls ++ cut n n rest.
Proof.
  induction 1 as [|l ls Hl _ IH]; [reflexivity |].
  cbn [map]. rewrite !unlines_cons, !append_assoc.
  rewrite (cut_no_linebreak n (spaces n) _ (no_linebreak_spaces n) n).
  rewrite slice_from_spaces, length_spaces, Nat.sub_diag.
  cbn [append]. rewrite (cut_token n l _ Hl), cut_newline, IH.
  reflexivity.
Qed.

Lemma cut_spaces (n m : nat) : m <= n -> cut n n (spaces m) = "".
Proof.
  intros H. rewrite <- (append_nil_r (spaces m)).
  rewrite (cut_no_linebreak n (spaces m) "" (no_linebreak_spaces m) n).
  cbn [cut]. rewrite append_nil_r.
  revert n H. induction m as [|m IH]; intros [|n] H; try reflexivity.
  - lia.
  - apply IH. lia.
Qed.

(** The shape all the templates of the generator have: an empty first
    line, lines indented by at least [n] spaces, and a last line of at most
    [n] spaces and no newline. *)
Lemma unindent_template (n m : nat) (ls : list string) :
  0 < n -> m <= n ->
  Forall (fun l => no_linebreak l = true) ls ->
  unindent (nl ++ unlines (map (fun l => spaces n ++ l) ls) ++ spaces m) n
  = unlines ls.
Proof.
  intros Hn Hm Hls. rewrite unindent_cut, cut_newline.
  destruct n as [|n]; [lia |].
  rewrite (cut_indented_lines (S n) ls _ Hls), (cut_spaces (S n) m Hm).
  apply append_nil_r.
Qed.

(** The lines of a template do not contain a line boundary when the
    strings put into them do not. *)
Ltac no_linebreak_lines :=
  repeat (apply Forall_cons || apply Forall_nil);
  rewrite ?no_linebreak_app;
  repeat match goal with
         | H : no_linebreak _ = true |- _ => rewrite H
         end;
  reflexivity.

(** Both sides are concatenations of the same pieces. *)
Ltac same_text :=
  cbn [app map]; rewrite ?unlines_cons; unfold unlines;
  cbn [map join String.concat spaces]; rewrite ?append_assoc;
  cbn [append]; reflexivity.

Lemma gen_overrideAttrs_lines self name ver nix_name bi pbi :
  no_linebreak name = true -> no_linebreak ver = true ->
  no_linebreak nix_name = true ->
  no_linebreak bi = true -> no_linebreak pbi = true ->
  _gen_overrideAttrs self name ver nix_name bi pbi
  = unlines (override_lines nix_name name ver bi pbi (disable_checks self)).
Proof.
  intros Hn Hv Hk Hb Hp.
  rewrite <- (unindent_template 4 0); [| lia | lia |].
  - unfold _gen_overrideAttrs, override_lines. f_equal.
    destruct (truthy bi), (truthy pbi), (disable_checks self); same_text.
  - unfold override_lines.
    destruct (truthy bi), (truthy pbi), (disable_checks self);
      no_linebreak_lines.
Qed.

Lemma gen_builPythonPackage_lines self name ver bi pbi :
  no_linebreak name = true -> no_linebreak ver = true ->
  no_linebreak bi = true -> no_linebreak pbi = true ->
  _gen_builPythonPackage self name ver bi pbi
  = unlines (fresh_lines name ver bi pbi (disable_checks self)).
Proof.
  intros Hn Hv Hb Hp.
  rewrite <- (unindent_template 4 0); [| lia | lia |].
  - unfold _gen_builPythonPackage, fresh_lines. f_equal.
    destruct (truthy (strip bi)), (truthy (strip pbi)), (disable_checks self);
      same_text.
  - unfold fresh_lines.
    destruct (truthy (strip bi)), (truthy (strip pbi)), (disable_checks self);
      no_linebreak_lines.
Qed.

Lemma splitlines_line (t rest : string) :
  no_linebreak t = true ->
  splitlines (t ++ nl ++ rest) = (t ++ nl) :: splitlines rest.
Proof.
  unfold no_linebreak.
  induction t as [|c t IH]; intros H; [reflexivity |].
  simpl in H. apply andb_true_iff in H as [Hc Ht].
  cbn [append splitlines]. unfold ends_line.
  apply negb_true_iff in Hc. rewrite Hc. cbn [andb].
  now rewrite (IH Ht).
Qed.

(** The lines Python sees in a text made of lines are these lines. *)
Lemma splitlines_unlines (ls : list string) :
  Forall (fun l => no_linebreak l = true) ls ->
  splitlines (unlines ls) = map (fun l => l ++ nl) ls.
Proof.
  induction 1 as [|l ls Hl _ IH]; [reflexivity |].
  rewrite unlines_cons, (splitlines_line l _ Hl), IH. reflexivity.
Qed.

(** ** The order of strings *)

Lemma ascii_compare_refl (a : ascii) : Ascii.compare a a = Eq.
Proof. unfold Ascii.compare. apply N.compare_refl. Qed.

Lemma ascii_compare_lt_trans (a b c : ascii) :
  Ascii.compare a b = Lt -> Ascii.compare b c = Lt -> Ascii.compare a c = Lt.
Proof.
  unfold Ascii.compare. rewrite !N.compare_lt_iff. apply N.lt_trans.
Qed.

Lemma compare_refl (s : string) : String.compare s s = Eq.
Proof.
  induction s as [|c s IH]; simpl; [reflexivity |].
  now rewrite ascii_compare_refl.
Qed.

Lemma compare_lt_trans (s1 : string) :
  forall s2 s3,
    String.compare s1 s2 = Lt -> String.compare s2 s3 = Lt ->
    String.compare s1 s3 = Lt.
Proof.
  induction s1 as [|a s1 IH]; intros [|b s2] [|c s3]; simpl;
    try discriminate; try reflexivity.
  destruct (Ascii.compare a b) eqn:Hab; try discriminate;
    destruct (Ascii.compare b c) eqn:Hbc; try discriminate; intros H1 H2.
  - apply Ascii.compare_eq_iff in Hab, Hbc. subst.
    rewrite ascii_compare_refl. now apply (IH s2).
  - apply Ascii.compare_eq_iff in Hab. subst. now rewrite Hbc.
  - apply Ascii.compare_eq_iff in Hbc. subst. now rewrite Hab.
  - now rewrite (ascii_compare_lt_trans a b c).
Qed.

Lemma leb_refl (s : string) : String.leb s s = true.
Proof. unfold String.leb. now rewrite compare_refl. Qed.

Lemma leb_trans (s1 s2 s3 : string) :
  String.leb s1 s2 = true -> String.leb s2 s3 = true ->
  String.leb s1 s3 = true.
Proof.
  unfold String.leb.
  destruct (String.compare s1 s2) eqn:H12; try discriminate;
    destruct (String.compare s2 s3) eqn:H23; try discriminate; intros _ _.
  - apply String.compare_eq_iff in H12. subst. now rewrite H23.
  - apply String.compare_eq_iff in H12. subst. now rewrite H23.
  - apply String.compare_eq_iff in H23. subst. now rewrite H12.
  - now rewrite (compare_lt_trans s1 s2 s3).
Qed.

Lemma leb_false_lt (s1 s2 : string) :
  String.leb s1 s2 = false -> String.leb s2 s1 = true.
Proof.
  intros H. destruct (String.leb_total s1 s2) as [H'|H']; congruence.
Qed.

(** ** Sorting *)

Section SortedBy.

Context {A : Type} (key : A -> string).

Lemma insert_sorted_perm (x : A) (l : list A) :
  Permutation (insert_sorted key x l) (x :: l).
Proof.
  induction l as [|y l IH]; simpl; [reflexivity |].
  destruct (String.leb (key x) (key y)); [reflexivity |].
  rewrite IH. apply perm_swap.
Qed.

Lemma sorted_by_perm (l : list A) : Permutation (sorted_by key l) l.
Proof.
  induction l as [|x l IH]; simpl; [reflexivity |].
  now rewrite insert_sorted_perm, IH.
Qed.

Lemma sorted_by_In (l : list A) (x : A) : In x (sorted_by key l) <-> In x l.
Proof.
  split; apply Permutation_in;
    [apply sorted_by_perm | apply Permutation_sym, sorted_by_perm].
Qed.

Lemma insert_sorted_HdRel (a x : A) (l : list A) :
  key_le key a x -> HdRel (key_le key) a l ->
  HdRel (key_le key) a (insert_sorted key x l).
Proof.
  intros Hax Hal. destruct l as [|y l]; simpl.
  - now constructor.
  - destruct (String.leb (key x) (key y)); constructor; trivial.
    now inversion Hal.
Qed.

Lemma insert_sorted_Sorted (x : A) (l : list A) :
  Sorted (key_le key) l -> Sorted (key_le key) (insert_sorted key x l).
Proof.
  induction 1 as [|y l Hl IH Hy]; simpl.
  - repeat constructor.
  - destruct (String.leb (key x) (key y)) eqn:Hxy.
    + constructor; [now constructor | now constructor].
    + constructor; [exact IH |].
      apply insert_sorted_HdRel; [| exact Hy].
      now apply leb_false_lt.
Qed.

Lemma sorted_by_Sorted (l : list A) : Sorted (key_le key) (sorted_by key l).
Proof.
  induction l as [|x l IH]; simpl; [constructor |].
  now apply insert_sorted_Sorted.
Qed.

Lemma sorted_by_StronglySorted (l : list A) :
  StronglySorted (key_le key) (sorted_by key l).
Proof.
  apply Sorted_StronglySorted; [| apply sorted_by_Sorted].
  intros x y z. unfold key_le. apply leb_trans.
Qed.

(** Insertions of elements with different keys commute. *)
Lemma insert_sorted_comm (x y : A) (l : list A) :
  key x <> key y ->
  insert_sorted key x (insert_sorted key y l)
  = insert_sorted key y (insert_sorted key x l).
Proof.
  intros Hxy. induction l as [|z l IH]; simpl.
  - destruct (String.leb (key x) (key y)) eqn:H1,
             (String.leb (key y) (key x)) eqn:H2; try reflexivity.
    + elim Hxy. now apply String.leb_antisym.
    + apply leb_false_lt in H1. congruence.
  - destruct (String.leb (key y) (key z)) eqn:Hyz,
             (String.leb (key x) (key z)) eqn:Hxz; simpl;
      rewrite ?Hyz, ?Hxz.
    + destruct (String.leb (key x) (key y)) eqn:H1,
               (String.leb (key y) (key x)) eqn:H2; try reflexivity.
      * elim Hxy. now apply String.leb_antisym.
      * apply leb_false_lt in H1. congruence.
    + destruct (String.leb (key x) (key y)) eqn:H1; [| reflexivity].
      rewrite (leb_trans _ _ _ H1 Hyz) in Hxz. discriminate.
    + destruct (String.leb (key y) (key x)) eqn:H1; [| reflexivity].
      rewrite (leb_trans _ _ _ H1 Hxz) in Hyz. discriminate.
    + now rewrite IH.
Qed.

(** The sorted list does not depend on the order of the input, when the
    keys are pairwise different. *)
Lemma sorted_by_permutation (l l' : list A) :
  NoDup (map key l) -> Permutation l l' ->
  sorted_by key l = sorted_by key l'.
Proof.
  intros Hnd Hp. induction Hp as [|x l l' Hp IH|x y l|l l' l'' Hp1 IH1 Hp2 IH2].
  - reflexivity.
  - simpl. inversion Hnd; subst. now rewrite IH.
  - simpl. apply insert_sorted_comm.
    inversion Hnd as [|? ? Hin _]; subst. simpl in Hin. intuition.
  - rewrite IH1 by assumption. apply IH2.
    eapply Permutation_NoDup; [| exact Hnd]. now apply Permutation_map.
Qed.

End SortedBy.

Lemma sorted_by_map {A B : Type} (key : B -> string) (f : A -> B)
  (l : list A) :
  sorted_by key (map f l) = map f (sorted_by (fun x => key (f x)) l).
Proof.
  induction l as [|x l IH]; [reflexivity |].
  simpl. rewrite IH. generalize (sorted_by (fun x => key (f x)) l) as s.
  induction s as [|y s IHs]; simpl; [reflexivity |].
  destruct (String.leb (key (f x)) (key (f y))); simpl; [reflexivity |].
  now rewrite IHs.
Qed.

(** ** Dictionaries *)

Lemma dict_set_new {V : Type} (d : Dict.t V) (k : string) (v : V) :
  ~ In k (Dict.keys d) -> Dict.set d k v = (d ++ [(k, v)])%list.
Proof.
  induction d as [|[k' v'] d IH]; simpl; intros H; [reflexivity |].
  destruct (String.eqb_spec k k') as [->|Hne].
  - elim H. now left.
  - rewrite IH; [reflexivity | intuition].
Qed.

Lemma dict_of_items_app {V : Type} (items acc : list (string * V)) :
  NoDup (map fst (acc ++ items)) ->
  fold_left (fun d kv => Dict.set d (fst kv) (snd kv)) items acc
  = (acc ++ items)%list.
Proof.
  revert acc. induction items as [|[k v] items IH]; intros acc Hnd; simpl.
  - now rewrite app_nil_r.
  - rewrite dict_set_new.
    + rewrite IH; rewrite <- app_assoc; [reflexivity | exact Hnd].
    + rewrite map_app in Hnd. simpl in Hnd.
      apply NoDup_remove_2 in Hnd. intros Hin. apply Hnd.
      apply in_or_app. now left.
Qed.

(** A list of items with pairwise different keys is the dictionary it
    makes. *)
Lemma dict_of_items_nodup {V : Type} (items : list (string * V)) :
  NoDup (map fst items) -> Dict.of_items items = items.
Proof. intros H. unfold Dict.of_items. now rewrite dict_of_items_app. Qed.

Lemma dict_get_missing {V : Type} (d : Dict.t V) (k : string) :
  ~ In k (Dict.keys d) -> Dict.get d k = KeyError k.
Proof.
  induction d as [|[k' v] d IH]; simpl; intros H; [reflexivity |].
  destruct (String.eqb_spec k k') as [->|Hne]; [elim H; now left |].
  apply IH. intuition.
Qed.

Lemma dict_get_error {V : Type} (d : Dict.t V) (k k' : string) :
  Dict.get d k = KeyError k' -> k' = k /\ ~ In k (Dict.keys d).
Proof.
  induction d as [|[k0 v] d IH]; simpl.
  - intros [= ->]. auto.
  - destruct (String.eqb_spec k k0) as [->|Hne]; [discriminate |].
    intros H. destruct (IH H) as [-> Hn]. split; [reflexivity |].
    intros [Heq|Hin]; [now elim Hne | now elim Hn].
Qed.

Lemma dict_get_In {V : Type} (d : Dict.t V) (k : string) (v : V) :
  NoDup (Dict.keys d) -> In (k, v) d -> Dict.get d k = Ok v.
Proof.
  induction d as [|[k0 v0] d IH]; simpl; intros Hnd Hin; [contradiction |].
  inversion Hnd as [|? ? Hk0 Hnd']; subst.
  destruct Hin as [[= -> ->]|Hin].
  - now rewrite String.eqb_refl.
  - destruct (String.eqb_spec k k0) as [->|Hne]; [| now apply IH].
    elim Hk0. change k0 with (fst (k0, v)). now apply in_map.
Qed.

(** ** Loops that can raise *)

Lemma mapM_ok {A B : Type} (f : A -> result B) (g : A -> B) (l : list A) :
  (forall x, In x l -> f x = Ok (g x)) -> mapM f l = Ok (map g l).
Proof.
  induction l as [|x l IH]; simpl; intros H; [reflexivity |].
  rewrite (H x) by now left. simpl.
  rewrite IH by (intros; apply H; now right). reflexivity.
Qed.

Lemma mapM_error {A B : Type} (f : A -> result B) (l : list A) (k : string) :
  mapM f l = KeyError k -> exists x, In x l /\ f x = KeyError k.
Proof.
  induction l as [|x l IH]; simpl; [discriminate |].
  destruct (f x) as [y|k'] eqn:Hx; simpl.
  - destruct (mapM f l) as [ys|k'']; simpl; [discriminate |].
    intros [= ->]. destruct (IH eq_refl) as (x' & Hin & Hx').
    exists x'. auto.
  - intros [= ->]. exists x. auto.
Qed.

Lemma mapM_fails {A B : Type} (f : A -> result B) (l : list A) (x : A)
  (k : string) :
  In x l -> f x = KeyError k -> exists k', mapM f l = KeyError k'.
Proof.
  induction l as [|y l IH]; simpl; [contradiction |].
  intros [->|Hin] Hx.
  - rewrite Hx. simpl. now exists k.
  - destruct (f y) as [z|k']; simpl; [| now exists k'].
    destruct (IH Hin Hx) as [k' ->]. simpl. now exists k'.
Qed.

Lemma mapM_ok_inv {A B : Type} (f : A -> result B) (l : list A)
  (ys : list B) :
  mapM f l = Ok ys -> Forall2 (fun x y => f x = Ok y) l ys.
Proof.
  revert ys. induction l as [|x l IH]; simpl; intros ys.
  - intros [= <-]. constructor.
  - destruct (f x) as [y|k] eqn:Hx; simpl; [| discriminate].
    destruct (mapM f l) as [ys'|k]; simpl; [| discriminate].
    intros [= <-]. constructor; [exact Hx | now apply IH].
Qed.

(** A loop that skips some elements and appends a text for each of the
    others. *)
Lemma foldM_append {A : Type} (keep : A -> bool) (f : A -> result string)
  (l : list A) (out : string) :
  foldM (fun out x =>
           if negb (keep x) then Ok out
           else block <- f x ;; Ok (out ++ block)) l out
  = blocks <- mapM f (filter keep l) ;; Ok (out ++ join "" blocks).
Proof.
  revert out. induction l as [|x l IH]; intros out; cbn [foldM filter].
  - cbn. now rewrite append_nil_r.
  - destruct (keep x); cbn [negb mapM bind].
    + destruct (f x) as [b|k]; cbn [bind]; [| reflexivity].
      rewrite IH. destruct (mapM f (filter keep l)) as [bs|k]; cbn [bind];
        [| reflexivity].
      now rewrite join_nil_cons, append_assoc.
    + apply IH.
Qed.

(** ** The dictionary of the resolved packages *)

Lemma pkg_items_keys (l : list ResolvedPkg) :
  Dict.keys (pkg_items l) = map name l.
Proof. unfold Dict.keys, pkg_items. rewrite map_map. reflexivity. Qed.

Lemma pkg_items_values (l : list ResolvedPkg) :
  Dict.values (pkg_items l) = l.
Proof. unfold Dict.values, pkg_items. rewrite map_map. apply map_id. Qed.

Lemma sorted_names_NoDup (l : list ResolvedPkg) :
  NoDup (map name l) -> NoDup (map name (sorted_by name l)).
Proof.
  apply Permutation_NoDup, Permutation_map, Permutation_sym, sorted_by_perm.
Qed.

(** With pairwise different names, the dictionary [generate] builds lists
    the packages by name. *)
Lemma generate_sorted self (pkgs : list ResolvedPkg) :
  NoDup (map name pkgs) ->
  generate self pkgs = _gen_python_env self (pkg_items (sorted_by name pkgs)).
Proof.
  intros Hnd. unfold generate. f_equal.
  rewrite (sorted_by_map (fun x : string * ResolvedPkg => name (snd x))).
  cbn [snd]. change (fun x : ResolvedPkg => name x) with name.
  apply dict_of_items_nodup. fold (pkg_items (sorted_by name pkgs)).
  fold (Dict.keys (pkg_items (sorted_by name pkgs))).
  rewrite pkg_items_keys. now apply sorted_names_NoDup.
Qed.

Lemma pkg_items_get (l : list ResolvedPkg) (p : ResolvedPkg) :
  NoDup (map name l) -> In p l -> Dict.get (pkg_items l) (name p) = Ok p.
Proof.
  intros Hnd Hin. apply dict_get_In.
  - now rewrite pkg_items_keys.
  - unfold pkg_items. now apply (in_map (fun p => (name p, p))).
Qed.

(** ** Sets *)

Lemma set_mem_In (x : string) (s : pyset) : set_mem x s = true <-> In x s.
Proof.
  unfold set_mem. rewrite existsb_exists. split.
  - intros (y & Hy & Heq). apply String.eqb_eq in Heq. now subst.
  - intros H. exists x. split; [exact H | apply String.eqb_refl].
Qed.

Lemma set_of_list_In (x : string) (l : list string) :
  In x (set_of_list l) <-> In x l.
Proof. apply nodup_In. Qed.

Lemma set_of_list_NoDup (l : list string) : NoDup (set_of_list l).
Proof. apply NoDup_nodup. Qed.

Lemma set_diff_In (x : string) (a b : pyset) :
  In x (set_diff a b) <-> In x a /\ ~ In x b.
Proof.
  unfold set_diff. rewrite filter_In, negb_true_iff.
  rewrite <- not_true_iff_false, set_mem_In. reflexivity.
Qed.

Lemma set_diff_NoDup (a b : pyset) : NoDup a -> NoDup (set_diff a b).
Proof. apply NoDup_filter. Qed.

(** ** The packages that get a block *)

Lemma overlay_keys_mem self (pkgs : list ResolvedPkg) (p : ResolvedPkg) :
  NoDup (map name pkgs) -> In p pkgs ->
  set_mem (name p) (overlay_keys self pkgs)
  = _needs_overlay self (name p) (ver p).
Proof.
  intros Hnd Hin.
  destruct (_needs_overlay self (name p) (ver p)) eqn:Hp.
  - apply set_mem_In, set_of_list_In, in_map, filter_In.
    split; [now apply sorted_by_In | exact Hp].
  - apply not_true_iff_false. rewrite set_mem_In.
    unfold overlay_keys. rewrite set_of_list_In, in_map_iff.
    intros (q & Hname & Hq). apply filter_In in Hq as [Hq Hneeds].
    apply sorted_by_In in Hq.
    assert (q = p) as ->; [| congruence].
    clear - Hnd Hin Hq Hname. induction pkgs as [|r l IH]; [contradiction |].
    simpl in Hnd. inversion Hnd as [|? ? Hr Hl]; subst.
    destruct Hin as [->|Hin], Hq as [->|Hq]; auto.
    + elim Hr. rewrite <- Hname. now apply in_map.
    + elim Hr. rewrite Hname. now apply in_map.
Qed.

Lemma overlaid_pkgs_filter self (pkgs : list ResolvedPkg) :
  NoDup (map name pkgs) ->
  filter (fun p => set_mem (name p) (overlay_keys self pkgs))
         (sorted_by name pkgs)
  = overlaid_pkgs self pkgs.
Proof.
  intros Hnd. apply filter_ext_in. intros p Hp.
  apply overlay_keys_mem; [exact Hnd | now apply sorted_by_In in Hp].
Qed.

(** ** The three parts of the output *)

Lemma gen_overlays_blocks self (d : Dict.t ResolvedPkg) (keys : pyset) :
  no_linebreak (py_ver_nix self) = true ->
  _gen_overlays self d keys
  = blocks <- mapM (_gen_overlays_pkg self d keys)
                   (filter (fun p => set_mem (name p) keys) (Dict.values d)) ;;
    Ok (overlays_header self ++ join "" blocks ++ overlays_footer).
Proof.
  intros Hpy. unfold _gen_overlays.
  rewrite (foldM_append (fun p => set_mem (name p) keys)).
  destruct (mapM _ _) as [blocks|k]; cbn [bind]; [| reflexivity].
  rewrite append_assoc. do 2 f_equal.
  unfold overlays_header.
  rewrite <- (unindent_template 10 10); [| lia | lia | no_linebreak_lines].
  f_equal. same_text.
Qed.

(** ** Stripping white space *)

Lemma lstrip_tight (s : string) : starts_tight s = true -> lstrip s = s.
Proof.
  destruct s as [|c s]; simpl; [discriminate |].
  intros H. apply negb_true_iff in H. now rewrite H.
Qed.

Lemma rstrip_tight (s : string) : ends_tight s = true -> rstrip s = s.
Proof.
  induction s as [|c s IH]; [discriminate |].
  destruct s as [|c' s].
  - simpl. intros H. apply negb_true_iff in H. now rewrite H.
  - intros H. change (ends_tight (String c' s) = true) in H.
    change (rstrip (String c (String c' s)))
      with (match rstrip (String c' s) with
            | EmptyString =>
                if isspace c then EmptyString else String c EmptyString
            | String a r => String c (String a r)
            end).
    now rewrite (IH H).
Qed.

Lemma starts_tight_app (s t : string) :
  starts_tight s = true -> starts_tight (s ++ t) = true.
Proof. destruct s; [discriminate | trivial]. Qed.

Lemma ends_tight_app (s t : string) :
  ends_tight t = true -> ends_tight (s ++ t) = true.
Proof.
  intros H. induction s as [|c s IH]; [exact H |].
  cbn [append]. destruct (s ++ t) eqn:E; [| exact IH].
  simpl in IH. discriminate.
Qed.

Lemma rstrip_app_spaces (s w : string) :
  all_chars isspace w = true -> rstrip (s ++ w) = rstrip s.
Proof.
  intros Hw. induction s as [|c s IH].
  - simpl. induction w as [|c w IHw]; [reflexivity |].
    simpl in Hw. apply andb_true_iff in Hw as [Hc Hw].
    simpl. now rewrite (IHw Hw), Hc.
  - simpl. now rewrite IH.
Qed.

Lemma rstrip_app_truthy (s t : string) :
  truthy (rstrip t) = true -> rstrip (s ++ t) = s ++ rstrip t.
Proof.
  intros H. induction s as [|c s IH]; [reflexivity |].
  simpl. rewrite IH. destruct (s ++ rstrip t) eqn:E; [| reflexivity].
  destruct s; simpl in E; [| discriminate].
  rewrite E in H. discriminate.
Qed.

Lemma is_token_tight (t : string) :
  is_token t = true -> starts_tight t = true /\ ends_tight t = true.
Proof.
  unfold is_token, no_space. intros H.
  apply andb_true_iff in H as [Ht Hs].
  destruct t as [|c t]; [discriminate |]. clear Ht.
  split.
  - simpl in *. now apply andb_true_iff in Hs.
  - revert c Hs. induction t as [|c' t IH]; intros c Hs.
    + simpl in *. now apply andb_true_iff in Hs.
    + change (ends_tight (String c' t) = true). apply IH.
      simpl in Hs. now apply andb_true_iff in Hs.
Qed.

Lemma truthy_tight (s : string) : ends_tight s = true -> truthy s = true.
Proof. destruct s; [discriminate | reflexivity]. Qed.

Lemma join_cons2 (sep a b : string) (l : list string) :
  join sep (a :: b :: l) = a ++ sep ++ join sep (b :: l).
Proof. reflexivity. Qed.

(** A list of tokens that is not empty, joined by any separator, starts and
    ends with a character that is no white space. *)
Lemma join_tokens_tight (sep : string) (l : list string) :
  l <> [] -> Forall (fun t => is_token t = true) l ->
  starts_tight (join sep l) = true /\ ends_tight (join sep l) = true.
Proof.
  intros Hne Hl. induction Hl as [|t l Ht Hl IH]; [congruence |].
  destruct (is_token_tight t Ht) as [Hs He].
  destruct l as [|t' l]; [now split |].
  rewrite join_cons2. split.
  - now apply starts_tight_app.
  - rewrite <- append_assoc. apply ends_tight_app. apply IH. discriminate.
Qed.

Lemma no_linebreak_join (sep : string) (l : list string) :
  no_linebreak sep = true ->
  Forall (fun t => no_linebreak t = true) l ->
  no_linebreak (join sep l) = true.
Proof.
  intros Hsep Hl. induction Hl as [|t l Ht Hl IH]; [reflexivity |].
  destruct l as [|t' l]; [exact Ht |].
  rewrite join_cons2, !no_linebreak_app, Ht, Hsep, IH. reflexivity.
Qed.

Lemma join_app (sep : string) (l1 l2 : list string) :
  l1 <> [] -> l2 <> [] ->
  join sep (l1 ++ l2) = join sep l1 ++ sep ++ join sep l2.
Proof.
  intros H1 H2. induction l1 as [|a l1 IH]; [congruence |].
  destruct l1 as [|b l1].
  - destruct l2 as [|c l2]; [congruence | reflexivity].
  - cbn [app] in *. rewrite !join_cons2, IH by discriminate.
    now rewrite !append_assoc.
Qed.

(** Stripping the two joined lists of [_gen_build_inputs], when their
    elements are tokens, leaves the elements separated by one space. *)
Lemma strip_joined_tokens (l1 l2 : list string) :
  Forall (fun t => is_token t = true) l1 ->
  Forall (fun t => is_token t = true) l2 ->
  strip (join " " l1 ++ " " ++ join " " l2) = join " " (l1 ++ l2).
Proof.
  intros H1 H2. unfold strip.
  destruct l1 as [|a l1], l2 as [|b l2].
  - reflexivity.
  - destruct (join_tokens_tight " " (b :: l2)) as [Hs He];
      [discriminate | exact H2 |].
    cbn [app]. change (join " " []) with "". cbn [append].
    rewrite rstrip_tight by (apply (ends_tight_app " "), He).
    cbn [lstrip]. change (isspace " ") with true. cbv iota.
    now apply lstrip_tight.
  - destruct (join_tokens_tight " " (a :: l1)) as [Hs He];
      [discriminate | exact H1 |].
    rewrite app_nil_r. change (join " " []) with "".
    rewrite (rstrip_app_spaces _ (" " ++ "")) by reflexivity.
    rewrite rstrip_tight by exact He. now apply lstrip_tight.
  - rewrite <- join_app by discriminate.
    destruct (join_tokens_tight " " ((a :: l1) ++ b :: l2)) as [Hs He].
    + discriminate.
    + apply Forall_app. now split.
    + rewrite rstrip_tight by exact He. now apply lstrip_tight.
Qed.

(** ** The input lists of a block *)

Lemma is_token_prefixed (b : string) :
  is_token b = true -> is_token ("python-self." ++ b) = true.
Proof.
  intros H. apply is_token_no_space in H.
  unfold is_token, no_space in *. now rewrite all_chars_app, H.
Qed.

Lemma input_tokens_are_tokens (keys : pyset) (refs : list string) :
  Forall (fun t => is_token t = true) refs ->
  Forall (fun t => is_token t = true) (input_tokens keys refs).
Proof.
  intros H. rewrite Forall_forall in H. unfold input_tokens.
  apply Forall_app. split; apply Forall_forall.
  - intros t Ht. apply sorted_by_In, set_of_list_In, filter_In in Ht.
    apply H, Ht.
  - intros t Ht. apply in_map_iff in Ht as (b & <- & Hb).
    apply sorted_by_In, set_diff_In in Hb as [Hb _].
    rewrite set_of_list_In in Hb. now apply is_token_prefixed, H.
Qed.

Lemma inputs_str_tokens (keys : pyset) (refs : list string) :
  Forall (fun t => is_token t = true) refs ->
  inputs_str keys refs = join " " (input_tokens keys refs).
Proof.
  intros H. pose proof (input_tokens_are_tokens keys refs H) as Ht.
  unfold input_tokens in *. apply Forall_app in Ht as [H1 H2].
  unfold inputs_str, _gen_build_inputs. now apply strip_joined_tokens.
Qed.

Lemma inputs_str_no_linebreak (keys : pyset) (refs : list string) :
  Forall (fun t => is_token t = true) refs ->
  no_linebreak (inputs_str keys refs) = true.
Proof.
  intros H. rewrite (inputs_str_tokens keys refs H).
  apply no_linebreak_join; [reflexivity |].
  eapply Forall_impl; [| apply (input_tokens_are_tokens keys refs H)].
  intros t. apply is_token_no_linebreak.
Qed.

(** ** The environment *)

Lemma rstrip_pkg_names (refs : list string) :
  Forall (fun t => is_token t = true) refs ->
  rstrip (join "" (map (fun r => r ++ nl ++ spaces 14) refs))
  = join (nl ++ spaces 14) refs.
Proof.
  induction 1 as [|r refs Hr Hrefs IH]; [reflexivity |].
  cbn [map]. rewrite join_nil_cons.
  destruct refs as [|r' refs].
  - change (join "" (map _ [])) with "". rewrite append_nil_r.
    rewrite rstrip_app_spaces by reflexivity.
    apply rstrip_tight, is_token_tight, Hr.
  - destruct (join_tokens_tight (nl ++ spaces 14) (r' :: refs)) as [_ He];
      [discriminate | exact Hrefs |].
    rewrite rstrip_app_truthy; rewrite IH.
    + rewrite join_cons2. now rewrite !append_assoc.
    + now apply truthy_tight.
Qed.

Lemma env_ref_lines (refs : list string) (rest : string) :
  refs <> [] ->
  spaces 14 ++ join (nl ++ spaces 14) refs ++ nl ++ rest
  = unlines (map (fun l => spaces 12 ++ l) (map (fun r => "  " ++ r) refs))
    ++ rest.
Proof.
  intros Hne. induction refs as [|r refs IH]; [congruence |].
  destruct refs as [|r' refs].
  - cbn [map]. rewrite unlines_cons. change (unlines []) with "".
    change (join (nl ++ spaces 14) [r]) with r.
    cbn [spaces]. rewrite ?append_assoc. cbn [append]. reflexivity.
  - rewrite join_cons2. cbn [map]. rewrite unlines_cons.
    cbn [map] in IH. rewrite !append_assoc, <- IH by discriminate.
    cbn [spaces]. rewrite ?append_assoc. cbn [append]. reflexivity.
Qed.

Lemma env_lines_no_linebreak self (refs : list string) :
  no_linebreak (py_ver_nix self) = true ->
  Forall (fun t => is_token t = true) refs ->
  Forall (fun l => no_linebreak l = true) (env_lines self refs).
Proof.
  intros Hpy Hrefs. unfold env_lines.
  apply Forall_app. split; [no_linebreak_lines |].
  apply Forall_app. split; [| no_linebreak_lines].
  destruct refs as [|r refs]; [no_linebreak_lines |].
  apply Forall_forall. intros l Hl.
  apply in_map_iff in Hl as (t & <- & Ht).
  rewrite Forall_forall in Hrefs.
  rewrite no_linebreak_app, (is_token_no_linebreak t (Hrefs t Ht)).
  reflexivity.
Qed.

Lemma env_lines_refs self (refs : list string) :
  refs <> [] ->
  env_lines self refs
  = List.app
      [ "in";
        "";
        "with import nixpkgs_src { overlays = [ overlay ]; };";
        "";
        py_ver_nix self ++ ".withPackages (ps: with ps; [" ]
      (List.app (map (fun r => "  " ++ r) refs) [ "])" ]).
Proof. destruct refs; [congruence | reflexivity]. Qed.

(** The text of the environment, when the references are tokens. *)
Lemma env_text self (refs : list string) :
  no_linebreak (py_ver_nix self) = true ->
  Forall (fun t => is_token t = true) refs ->
  unindent
    (nl ++
     "            in" ++ nl ++
     "            " ++ nl ++
     "            with import nixpkgs_src { overlays = [ overlay ]; };" ++ nl ++
     "            " ++ nl ++
     "            " ++ py_ver_nix self ++ ".withPackages (ps: with ps; [" ++ nl ++
     "              " ++ rstrip (join "" (map (fun r => r ++ nl ++ spaces 14) refs)) ++ nl ++
     "            ])" ++ nl ++
     "            ") 12
  = unlines (env_lines self refs).
Proof.
  intros Hpy Hrefs. rewrite (rstrip_pkg_names refs Hrefs).
  rewrite <- (unindent_template 12 12 (env_lines self refs));
    [| lia | lia | now apply env_lines_no_linebreak].
  f_equal. destruct refs as [|r refs]; [unfold env_lines; same_text |].
  rewrite env_lines_refs by discriminate.
  rewrite !map_app, !unlines_app, !append_assoc.
  rewrite <- env_ref_lines by discriminate.
  generalize (join (nl ++ spaces 14) (r :: refs)) as j. intros j.
  same_text.
Qed.

Lemma filter_pkg_items (f : ResolvedPkg -> bool) (l : list ResolvedPkg) :
  filter (fun item => f (snd item)) (pkg_items l) = pkg_items (filter f l).
Proof.
  induction l as [|p l IH]; [reflexivity |].
  simpl. destruct (f p); simpl; now rewrite IH.
Qed.

(** The look-up of the version of a root package does not fail. *)
Lemma root_lines_ok self (l : list ResolvedPkg) :
  NoDup (map name l) ->
  mapM (fun item : string * ResolvedPkg =>
          p <- Dict.get (pkg_items l) (fst item) ;;
          Ok (_get_ref_name self (fst item) (ver p) ++ nl ++ spaces 14))
       (filter (fun item => is_root (snd item)) (Dict.items (pkg_items l)))
  = Ok (map (fun r => r ++ nl ++ spaces 14)
            (map (ref_of self) (filter is_root l))).
Proof.
  intros Hnd. unfold Dict.items. rewrite filter_pkg_items.
  rewrite map_map.
  rewrite (mapM_ok _ (fun item => ref_of self (snd item) ++ nl ++ spaces 14)).
  - unfold pkg_items. now rewrite map_map.
  - intros [k p] Hin. apply in_map_iff in Hin as (q & [= <- <-] & Hq).
    apply filter_In in Hq as [Hq _].
    cbn [fst snd]. now rewrite (pkg_items_get l q Hnd Hq).
Qed.

(** The output of [_gen_python_env] on a dictionary of packages listed by
    their names: the imports, the overlay with the blocks of the loop, the
    environment. *)
Lemma gen_python_env_parts self (l : list ResolvedPkg) :
  NoDup (map name l) ->
  no_linebreak (py_ver_nix self) = true ->
  Forall (fun t => is_token t = true) (map (ref_of self) (filter is_root l)) ->
  let keys :=
    set_of_list
      (map name (filter (fun p => _needs_overlay self (name p) (ver p)) l)) in
  _gen_python_env self (pkg_items l)
  = blocks <- mapM (_gen_overlays_pkg self (pkg_items l) keys)
                   (filter (fun p => set_mem (name p) keys) l) ;;
    Ok (_gen_imports self
        ++ (overlays_header self ++ join "" blocks ++ overlays_footer)
        ++ unlines (env_lines self (map (ref_of self) (filter is_root l)))).
Proof.
  intros Hnd Hpy Hrefs keys. unfold _gen_python_env.
  rewrite pkg_items_values. fold keys.
  rewrite (gen_overlays_blocks self _ keys Hpy), pkg_items_values.
  destruct (mapM _ _) as [blocks|k]; cbn [bind]; [| reflexivity].
  rewrite (root_lines_ok self l Hnd). cbn [bind].
  rewrite (env_text self _ Hpy Hrefs). now rewrite append_assoc.
Qed.

(** The output of [generate]. *)
Lemma generate_parts self (pkgs : list ResolvedPkg) :
  NoDup (map name pkgs) ->
  no_linebreak (py_ver_nix self) = true ->
  Forall (fun t => is_token t = true) (map (ref_of self) (root_pkgs pkgs)) ->
  generate self pkgs
  = blocks <- mapM (emitted self pkgs) (overlaid_pkgs self pkgs) ;;
    Ok (_gen_imports self
        ++ (overlays_header self ++ join "" blocks ++ overlays_footer)
        ++ unlines (env_lines self (map (ref_of self) (root_pkgs pkgs)))).
Proof.
  intros Hnd Hpy Hrefs. rewrite (generate_sorted self pkgs Hnd).
  rewrite gen_python_env_parts;
    [| now apply sorted_names_NoDup | exact Hpy | exact Hrefs].
  cbv zeta. fold (overlay_keys self pkgs).
  now rewrite (overlaid_pkgs_filter self pkgs Hnd).
Qed.

(** ** The block of one package *)

Lemma unify_keys_from (master_key : string) (keys : list string)
  (out : string) :
  fold_left
    (fun out key => out ++ "        " ++ key ++ " = " ++ master_key ++ ";" ++ nl)
    keys out
  = out ++ unlines (map (alias_line master_key) keys).
Proof.
  revert out. induction keys as [|key keys IH]; intros out; cbn [fold_left map].
  - change (unlines []) with "". now rewrite append_nil_r.
  - rewrite IH, unlines_cons. unfold alias_line.
    now rewrite !append_assoc.
Qed.

Lemma gen_unify_nixpkgs_keys_lines (master_key : string)
  (nixpkgs_keys : list string) :
  _gen_unify_nixpkgs_keys master_key nixpkgs_keys
  = unlines (map (alias_line master_key) nixpkgs_keys).
Proof. unfold _gen_unify_nixpkgs_keys. now rewrite unify_keys_from. Qed.

Lemma refs_ok self (l deps : list ResolvedPkg) :
  NoDup (map name l) ->
  Forall (fun q => In q l) deps ->
  mapM (fun b => p <- Dict.get (pkg_items l) b ;;
                 Ok (_get_ref_name self b (ver p)))
       (map name deps)
  = Ok (map (ref_of self) deps).
Proof.
  intros Hnd Hdeps. induction Hdeps as [|q deps Hq _ IH]; [reflexivity |].
  cbn [map mapM]. rewrite (pkg_items_get l q Hnd Hq). cbn [bind].
  rewrite IH. reflexivity.
Qed.

Lemma gen_overlays_pkg_ok self (l : list ResolvedPkg) (keys : pyset)
  (p : ResolvedPkg) (bdeps pdeps : list ResolvedPkg) :
  NoDup (map name l) ->
  Forall (fun q => In q l) bdeps -> build_inputs p = map name bdeps ->
  Forall (fun q => In q l) pdeps -> prop_build_inputs p = map name pdeps ->
  _gen_overlays_pkg self (pkg_items l) keys p
  = Ok (block_text self keys p bdeps pdeps).
Proof.
  intros Hnd Hb Eb Hp Ep. unfold _gen_overlays_pkg.
  rewrite Eb, Ep, (refs_ok self l bdeps Hnd Hb), (refs_ok self l pdeps Hnd Hp).
  cbn [bind]. unfold block_text.
  change (_get_ref_name self (name p) (ver p)) with (ref_of self p).
  destruct (exists_ (nixpkgs self) (name p) None) eqn:Hex; [| reflexivity].
  assert (ref_of self p
          = find_best_nixpkgs_candidate (nixpkgs self) (name p) (ver p)) as E
    by (unfold ref_of, _get_ref_name; now rewrite Hex).
  rewrite E. reflexivity.
Qed.

(** The inputs of a package are the names of resolved packages. *)
Lemma names_are_pkgs (l : list ResolvedPkg) (bs : list string) :
  (forall b, In b bs -> In b (map name l)) ->
  exists deps, Forall (fun q => In q l) deps /\ bs = map name deps.
Proof.
  induction bs as [|b bs IH]; intros H.
  - exists []. split; [constructor | reflexivity].
  - destruct IH as (deps & Hdeps & ->); [intros; apply H; now right |].
    destruct (proj1 (in_map_iff name l b) (H b (or_introl eq_refl)))
      as (q & <- & Hq).
    exists (q :: deps). split; [now constructor | reflexivity].
Qed.

(** The loop fails on a package only with the name of an input that is not
    a key of the dictionary, and it does fail when there is such an input. *)
Lemma refs_error self (d : Dict.t ResolvedPkg) (bs : list string)
  (k : string) :
  mapM (fun b => p <- Dict.get d b ;; Ok (_get_ref_name self b (ver p))) bs
  = KeyError k ->
  In k bs /\ ~ In k (Dict.keys d).
Proof.
  intros H. apply mapM_error in H as (b & Hb & H).
  destruct (Dict.get d b) as [p|k'] eqn:Hget; cbn [bind] in H; [discriminate |].
  injection H as ->. apply dict_get_error in Hget as [-> Hn]. auto.
Qed.

Lemma refs_fail self (d : Dict.t ResolvedPkg) (bs : list string)
  (b : string) :
  In b bs -> ~ In b (Dict.keys d) ->
  exists k,
    mapM (fun b => p <- Dict.get d b ;; Ok (_get_ref_name self b (ver p))) bs
    = KeyError k.
Proof.
  intros Hb Hn. apply (mapM_fails _ bs b b Hb).
  now rewrite (dict_get_missing d b Hn).
Qed.

Lemma gen_overlays_pkg_error self (d : Dict.t ResolvedPkg) (keys : pyset)
  (p : ResolvedPkg) (k : string) :
  _gen_overlays_pkg self d keys p = KeyError k ->
  (In k (build_inputs p) \/ In k (prop_build_inputs p))
  /\ ~ In k (Dict.keys d).
Proof.
  unfold _gen_overlays_pkg.
  destruct (mapM _ (build_inputs p)) as [bs|k1] eqn:H1; cbn [bind].
  - destruct (mapM _ (prop_build_inputs p)) as [ps|k2] eqn:H2; cbn [bind].
    + destruct (exists_ (nixpkgs self) (name p) None); discriminate.
    + intros [= ->]. apply refs_error in H2. intuition.
  - intros [= ->]. apply refs_error in H1. intuition.
Qed.

Lemma gen_overlays_pkg_fails self (d : Dict.t ResolvedPkg) (keys : pyset)
  (p : ResolvedPkg) (b : string) :
  In b (build_inputs p) \/ In b (prop_build_inputs p) ->
  ~ In b (Dict.keys d) ->
  exists k, _gen_overlays_pkg self d keys p = KeyError k.
Proof.
  intros Hb Hn. unfold _gen_overlays_pkg.
  destruct (mapM _ (build_inputs p)) as [bs|k1] eqn:H1; cbn [bind];
    [| now exists k1].
  destruct Hb as [Hb|Hb].
  - destruct (refs_fail self d _ b Hb Hn) as [k Hk]. congruence.
  - destruct (refs_fail self d _ b Hb Hn) as [k ->]. cbn [bind]. now exists k.
Qed.

(** ** Valid inputs and the text generated for them *)

Lemma nodupb_NoDup (l : list string) : nodupb l = true -> NoDup l.
Proof.
  induction l as [|x l IH]; simpl; [constructor |].
  intros H. apply andb_true_iff in H as [Hx Hl].
  constructor; [| now apply IH].
  apply negb_true_iff in Hx. rewrite <- set_mem_In. congruence.
Qed.

Section ValidInput.

Variable self : OverlaysGenerator.
Variable pkgs : list ResolvedPkg.
Hypothesis valid : valid_input self pkgs = true.

Lemma valid_NoDup : NoDup (map name pkgs).
Proof.
  unfold valid_input in valid.
  apply andb_true_iff in valid as [H _]. apply andb_true_iff in H as [H _].
  now apply nodupb_NoDup.
Qed.

Lemma valid_py_ver : no_linebreak (py_ver_nix self) = true.
Proof.
  unfold valid_input in valid.
  apply andb_true_iff in valid as [H _]. now apply andb_true_iff in H.
Qed.

Lemma valid_pkg (p : ResolvedPkg) :
  In p pkgs ->
  no_linebreak (name p) = true /\ no_linebreak (ver p) = true
  /\ is_token (ref_of self p) = true
  /\ (forall b, In b (build_inputs p) -> In b (map name pkgs))
  /\ (forall b, In b (prop_build_inputs p) -> In b (map name pkgs)).
Proof.
  intros Hp. unfold valid_input in valid.
  apply andb_true_iff in valid as [_ H].
  rewrite forallb_forall in H. specialize (H p Hp).
  repeat (apply andb_true_iff in H as [H ?]).
  repeat split; trivial; intros b Hb; apply set_mem_In;
    match goal with
    | F : forallb _ ?l = true, I : In b ?l |- _ =>
        rewrite forallb_forall in F; exact (F b I)
    end.
Qed.

Lemma find_pkg_In (b : string) :
  In b (map name pkgs) ->
  exists q, find_pkg pkgs b = Some q /\ In q pkgs /\ name q = b.
Proof.
  intros Hb. unfold find_pkg.
  destruct (find _ pkgs) as [q|] eqn:Hf.
  - apply find_some in Hf as [Hq Hn]. apply String.eqb_eq in Hn.
    now exists q.
  - apply in_map_iff in Hb as (q & <- & Hq).
    apply (find_none _ _ Hf) in Hq. now rewrite String.eqb_refl in Hq.
Qed.

Lemma deps_of_names (bs : list string) :
  (forall b, In b bs -> In b (map name pkgs)) ->
  Forall (fun q => In q pkgs) (deps_of pkgs bs)
  /\ bs = map name (deps_of pkgs bs).
Proof.
  induction bs as [|b bs IH]; intros H; [split; [constructor | reflexivity] |].
  destruct IH as [IH1 IH2]; [intros; apply H; now right |].
  destruct (find_pkg_In b (H b (or_introl eq_refl))) as (q & Hf & Hq & Hn).
  unfold deps_of in *. cbn [flat_map]. rewrite Hf. cbn [app map].
  split; [now constructor | congruence].
Qed.

Lemma deps_of_sorted (bs : list string) :
  Forall (fun q => In q pkgs) (deps_of pkgs bs) ->
  Forall (fun q => In q (sorted_by name pkgs)) (deps_of pkgs bs).
Proof.
  apply Forall_impl. intros q. apply sorted_by_In.
Qed.

Lemma overlaid_pkgs_In (p : ResolvedPkg) :
  In p (overlaid_pkgs self pkgs)
  <-> In p pkgs /\ _needs_overlay self (name p) (ver p) = true.
Proof.
  unfold overlaid_pkgs. rewrite filter_In, sorted_by_In. reflexivity.
Qed.

Lemma root_pkgs_In (p : ResolvedPkg) :
  In p (root_pkgs pkgs) <-> In p pkgs /\ is_root p = true.
Proof. unfold root_pkgs. rewrite filter_In, sorted_by_In. reflexivity. Qed.

Lemma emitted_ok (p : ResolvedPkg) :
  In p pkgs -> emitted self pkgs p = Ok (block_of self pkgs p).
Proof.
  intros Hp. destruct (valid_pkg p Hp) as (_ & _ & _ & Hb & Hpb).
  destruct (deps_of_names _ Hb) as [Hb1 Hb2].
  destruct (deps_of_names _ Hpb) as [Hp1 Hp2].
  unfold emitted, block_of. apply gen_overlays_pkg_ok; trivial.
  - apply sorted_names_NoDup, valid_NoDup.
  - now apply deps_of_sorted.
  - now apply deps_of_sorted.
Qed.

Lemma root_refs_tokens :
  Forall (fun t => is_token t = true) (map (ref_of self) (root_pkgs pkgs)).
Proof.
  apply Forall_forall. intros t Ht. apply in_map_iff in Ht as (p & <- & Hp).
  apply root_pkgs_In in Hp as [Hp _]. apply (valid_pkg p Hp).
Qed.

(** On a valid input the generator returns, and it returns this text. *)
Lemma generate_ok : generate self pkgs = Ok (generated_text self pkgs).
Proof.
  rewrite (generate_parts self pkgs valid_NoDup valid_py_ver root_refs_tokens).
  rewrite (mapM_ok _ (block_of self pkgs)); [reflexivity |].
  intros p Hp. apply emitted_ok. now apply overlaid_pkgs_In in Hp.
Qed.

Lemma dep_refs_tokens (bs : list string) :
  (forall b, In b bs -> In b (map name pkgs)) ->
  Forall (fun t => is_token t = true) (map (ref_of self) (deps_of pkgs bs)).
Proof.
  intros H. destruct (deps_of_names bs H) as [Hd _].
  apply Forall_forall. intros t Ht. apply in_map_iff in Ht as (q & <- & Hq).
  rewrite Forall_forall in Hd. apply (valid_pkg q (Hd q Hq)).
Qed.

Lemma build_refs_tokens (p : ResolvedPkg) :
  In p pkgs -> Forall (fun t => is_token t = true) (build_refs self pkgs p).
Proof. intros Hp. apply dep_refs_tokens, (valid_pkg p Hp). Qed.

Lemma prop_build_refs_tokens (p : ResolvedPkg) :
  In p pkgs ->
  Forall (fun t => is_token t = true) (prop_build_refs self pkgs p).
Proof. intros Hp. apply dep_refs_tokens, (valid_pkg p Hp). Qed.

End ValidInput.

(** * The claims *)

(** C1. [_needs_overlay name ver] is true exactly when the index has no
    exact match for the name and version, or has more than one identifier
    for the name.  It is a function of the index, the name and the version,
    with no state to change. *)
Theorem needs_overlay_iff self (n v : string) :
  _needs_overlay self n v = true
  <-> exists_ (nixpkgs self) n (Some v) = false
      \/ has_multiple_candidates (nixpkgs self) n = true.
Proof.
  unfold _needs_overlay. rewrite orb_true_iff, negb_true_iff. reflexivity.
Qed.

(** C2. [_get_ref_name name ver] is the identifier the index chooses for
    the name and version when the index has a match for the name, and the
    name itself otherwise. *)
Theorem get_ref_name_cases self (n v : string) :
  (exists_ (nixpkgs self) n None = true
   /\ _get_ref_name self n v
      = find_best_nixpkgs_candidate (nixpkgs self) n v)
  \/ (exists_ (nixpkgs self) n None = false
      /\ _get_ref_name self n v = n).
Proof.
  unfold _get_ref_name.
  destruct (exists_ (nixpkgs self) n None); [left | right]; split; reflexivity.
Qed.

(** C10. The output does not depend on the order in which the resolver
    lists the packages, whose names are pairwise different: [generate]
    sorts them by name first. *)
Theorem generate_permutation self (pkgs pkgs' : list ResolvedPkg) :
  NoDup (map name pkgs) -> Permutation pkgs pkgs' ->
  generate self pkgs = generate self pkgs'.
Proof.
  intros Hnd Hp.
  assert (NoDup (map name pkgs')) as Hnd'
    by (eapply Permutation_NoDup; [apply Permutation_map, Hp | exact Hnd]).
  rewrite (generate_sorted self pkgs Hnd), (generate_sorted self pkgs' Hnd').
  now rewrite (sorted_by_permutation name pkgs pkgs' Hnd Hp).
Qed.

Lemma generate_permutation_witness :
  NoDup (map name pkgs_c)
  /\ Permutation pkgs_c (rev pkgs_c)
  /\ generate (gen index true) pkgs_c = generate (gen index true) (rev pkgs_c).
Proof.
  assert (NoDup (map name pkgs_c)) as Hnd
    by (apply nodupb_NoDup; reflexivity).
  assert (Permutation pkgs_c (rev pkgs_c)) as Hp by apply Permutation_rev.
  split; [exact Hnd | split; [exact Hp |]].
  exact (generate_permutation (gen index true) pkgs_c (rev pkgs_c) Hnd Hp).
Defined.

(** ** Missing inputs *)

Lemma gen_overlays_error self (d : Dict.t ResolvedPkg) (keys : pyset)
  (k : string) :
  mapM (_gen_overlays_pkg self d keys)
       (filter (fun p => set_mem (name p) keys) (Dict.values d))
  = KeyError k ->
  _gen_overlays self d keys = KeyError k.
Proof.
  intros H. unfold _gen_overlays.
  rewrite (foldM_append (fun p => set_mem (name p) keys)), H. reflexivity.
Qed.

Lemma generate_error self (pkgs : list ResolvedPkg) (k : string) :
  NoDup (map name pkgs) ->
  mapM (emitted self pkgs) (overlaid_pkgs self pkgs) = KeyError k ->
  generate self pkgs = KeyError k.
Proof.
  intros Hnd H.
  assert (_gen_overlays self (pkg_items (sorted_by name pkgs))
                        (overlay_keys self pkgs) = KeyError k) as E.
  { apply gen_overlays_error.
    rewrite pkg_items_values, (overlaid_pkgs_filter self pkgs Hnd). exact H. }
  rewrite (generate_sorted self pkgs Hnd). unfold _gen_python_env.
  rewrite pkg_items_values. fold (overlay_keys self pkgs).
  rewrite E. reflexivity.
Qed.

(** The claim C4 as it is stated does not hold: the input [H] of [G] is
    not resolved, and the generator returns a text, because [G] is taken
    from the index and the loop does not look at its inputs. *)
Lemma missing_input_unnoticed :
  In "H" (build_inputs pkg_g)
  /\ ~ In "H" (map name pkgs_e)
  /\ exists out, generate with_checks pkgs_e = Ok out.
Proof.
  split; [now left | split].
  - simpl. intros [H|[]]. discriminate.
  - eexists. vm_compute. reflexivity.
Qed.

(** C4, amended.  When a package that needs an overlay has an input that
    is not the name of a resolved package, the generator raises a
    [KeyError] and returns no text; the key of the error is such an input
    of such a package. *)
Theorem missing_input_of_overlaid_pkg self (pkgs : list ResolvedPkg)
  (p : ResolvedPkg) (b : string) :
  NoDup (map name pkgs) ->
  In p pkgs -> _needs_overlay self (name p) (ver p) = true ->
  In b (build_inputs p) \/ In b (prop_build_inputs p) ->
  ~ In b (map name pkgs) ->
  exists k,
    generate self pkgs = KeyError k
    /\ ~ In k (map name pkgs)
    /\ exists q, In q pkgs /\ _needs_overlay self (name q) (ver q) = true
                 /\ (In k (build_inputs q) \/ In k (prop_build_inputs q)).
Proof.
  intros Hnd Hp Hneeds Hb Hmissing.
  assert (forall k, ~ In k (Dict.keys (pkg_items (sorted_by name pkgs)))
                    <-> ~ In k (map name pkgs)) as Hkeys.
  { intros k. rewrite pkg_items_keys.
    split; intros H Hin; apply H;
      (eapply Permutation_in; [| exact Hin]); apply Permutation_map;
      [apply Permutation_sym |]; apply sorted_by_perm. }
  destruct (gen_overlays_pkg_fails self (pkg_items (sorted_by name pkgs))
              (overlay_keys self pkgs) p b Hb (proj2 (Hkeys b) Hmissing))
    as [k0 Hk0].
  assert (In p (overlaid_pkgs self pkgs)) as Hin
    by (apply filter_In; split; [now apply sorted_by_In | exact Hneeds]).
  destruct (mapM_fails _ _ p k0 Hin Hk0) as [k Hk].
  exists k. split; [now apply generate_error |].
  apply mapM_error in Hk as (q & Hq & Hk).
  apply gen_overlays_pkg_error in Hk as [Hk Hn].
  apply filter_In in Hq as [Hq Hqn]. apply sorted_by_In in Hq.
  split; [now apply Hkeys | now exists q].
Qed.

(** Scenario (e), with [G] absent from the index. *)
Lemma missing_input_of_overlaid_pkg_witness :
  NoDup (map name pkgs_e)
  /\ exists k,
       generate (gen empty_index false) pkgs_e = KeyError k
       /\ ~ In k (map name pkgs_e)
       /\ exists q, In q pkgs_e
                    /\ _needs_overlay (gen empty_index false) (name q) (ver q)
                       = true
                    /\ (In k (build_inputs q) \/ In k (prop_build_inputs q)).
Proof.
  assert (NoDup (map name pkgs_e)) as Hnd
    by (apply nodupb_NoDup; reflexivity).
  split; [exact Hnd |].
  apply (missing_input_of_overlaid_pkg (gen empty_index false) pkgs_e
           pkg_g "H" Hnd).
  - now left.
  - reflexivity.
  - left. now left.
  - simpl. intros [H|[]]. discriminate.
Defined.

Example scenario_e :
  generate (gen empty_index false) pkgs_e = KeyError "H".
Proof. vm_compute. reflexivity. Qed.

(** ** The lines that disable the checks *)

Lemma override_lines_no_linebreak (nix_name name ver bi pbi : string)
  (dc : bool) :
  no_linebreak name = true -> no_linebreak ver = true ->
  no_linebreak nix_name = true ->
  no_linebreak bi = true -> no_linebreak pbi = true ->
  Forall (fun l => no_linebreak l = true)
         (override_lines nix_name name ver bi pbi dc).
Proof.
  intros Hn Hv Hk Hb Hp. unfold override_lines.
  destruct (truthy bi), (truthy pbi), dc; no_linebreak_lines.
Qed.

Lemma fresh_lines_no_linebreak (name ver bi pbi : string) (dc : bool) :
  no_linebreak name = true -> no_linebreak ver = true ->
  no_linebreak bi = true -> no_linebreak pbi = true ->
  Forall (fun l => no_linebreak l = true) (fresh_lines name ver bi pbi dc).
Proof.
  intros Hn Hv Hb Hp. unfold fresh_lines.
  destruct (truthy (strip bi)), (truthy (strip pbi)), dc; no_linebreak_lines.
Qed.

Lemma append_nl_inj (a b : string) : a ++ nl = b ++ nl -> a = b.
Proof.
  revert b. induction a as [|x a IH]; intros [|y b] H; simpl in H.
  - reflexivity.
  - destruct b; discriminate.
  - destruct a; discriminate.
  - injection H as -> H. now rewrite (IH b H).
Qed.

Lemma In_lines (l : string) (ls : list string) :
  In (l ++ nl) (map (fun l => l ++ nl) ls) <-> In l ls.
Proof.
  split; [| apply (in_map (fun l => l ++ nl))].
  intros H. apply in_map_iff in H as (l' & E & H).
  now rewrite <- (append_nl_inj _ _ E).
Qed.

(** Two strings that differ in a character of their known beginnings, or
    of which one is too long, are not equal. *)
Ltac different_lines H :=
  first [ cbn [append] in H; discriminate H
        | apply (f_equal String.length) in H;
          rewrite ?length_append in H; simpl in H; lia ].

Ltac not_among_lines H :=
  cbn [In app] in H;
  repeat match type of H with
         | _ \/ _ => destruct H as [H|H]
         | False => contradiction
         | _ = _ => different_lines H
         end.

Lemma checks_in_override_lines (nix_name name ver bi pbi : string)
  (dc : bool) :
  (In doCheck_line (override_lines nix_name name ver bi pbi dc) <-> dc = true)
  /\ (In doInstallCheck_line (override_lines nix_name name ver bi pbi dc)
      <-> dc = true).
Proof.
  unfold override_lines, doCheck_line, doInstallCheck_line.
  destruct dc; split; split; try discriminate; trivial; intros H.
  - rewrite !in_app_iff. do 3 right. left. now left.
  - rewrite !in_app_iff. do 3 right. left. right. now left.
  - exfalso. destruct (truthy bi), (truthy pbi); not_among_lines H.
  - exfalso. destruct (truthy bi), (truthy pbi); not_among_lines H.
Qed.

Lemma checks_in_fresh_lines (name ver bi pbi : string) (dc : bool) :
  (In doCheck_line (fresh_lines name ver bi pbi dc) <-> dc = true)
  /\ (In doInstallCheck_line (fresh_lines name ver bi pbi dc) <-> dc = true).
Proof.
  unfold fresh_lines, doCheck_line, doInstallCheck_line.
  destruct dc; split; split; try discriminate; trivial; intros H.
  - rewrite !in_app_iff. do 3 right. left. now left.
  - rewrite !in_app_iff. do 3 right. left. right. now left.
  - exfalso. destruct (truthy (strip bi)), (truthy (strip pbi));
      not_among_lines H.
  - exfalso. destruct (truthy (strip bi)), (truthy (strip pbi));
      not_among_lines H.
Qed.

(** C7. The lines of a block, as [splitlines] gives them: when checks are
    disabled, the override block and the block of a fresh package both
    have the line that disables the tests and the line that disables the
    install check; when they are not, neither block has either line.  The
    strings put into the block have no line boundary. *)
Theorem check_directives self (name ver nix_name bi pbi : string) :
  no_linebreak name = true -> no_linebreak ver = true ->
  no_linebreak nix_name = true ->
  no_linebreak bi = true -> no_linebreak pbi = true ->
  let override_block :=
    splitlines (_gen_overrideAttrs self name ver nix_name bi pbi) in
  let fresh_block :=
    splitlines (_gen_builPythonPackage self name ver bi pbi) in
  (disable_checks self = true ->
   In (doCheck_line ++ nl) override_block
   /\ In (doInstallCheck_line ++ nl) override_block
   /\ In (doCheck_line ++ nl) fresh_block
   /\ In (doInstallCheck_line ++ nl) fresh_block)
  /\ (disable_checks self = false ->
      ~ In (doCheck_line ++ nl) override_block
      /\ ~ In (doInstallCheck_line ++ nl) override_block
      /\ ~ In (doCheck_line ++ nl) fresh_block
      /\ ~ In (doInstallCheck_line ++ nl) fresh_block).
Proof.
  intros Hn Hv Hk Hb Hp override_block fresh_block.
  subst override_block fresh_block.
  rewrite gen_overrideAttrs_lines, gen_builPythonPackage_lines by assumption.
  rewrite !splitlines_unlines
    by (apply override_lines_no_linebreak || apply fresh_lines_no_linebreak;
        assumption).
  rewrite !In_lines.
  destruct (checks_in_override_lines nix_name name ver bi pbi
              (disable_checks self)) as [O1 O2].
  destruct (checks_in_fresh_lines name ver bi pbi (disable_checks self))
    as [F1 F2].
  rewrite O1, O2, F1, F2.
  split; intros ->; repeat split; congruence.
Qed.

Lemma check_directives_witness :
  no_linebreak "B" = true /\ no_linebreak "2.0" = true
  /\ no_linebreak "idA" = true
  /\ no_linebreak "x python-self.y" = true /\ no_linebreak "" = true
  /\ In (doCheck_line ++ nl)
        (splitlines (_gen_overrideAttrs without_checks "B" "2.0" "idA"
                                        "x python-self.y" ""))
  /\ In (doInstallCheck_line ++ nl)
        (splitlines (_gen_builPythonPackage without_checks "B" "2.0"
                                            "x python-self.y" "")).
Proof.
  pose proof (check_directives without_checks "B" "2.0" "idA"
                "x python-self.y" ""
                eq_refl eq_refl eq_refl eq_refl eq_refl) as [H _].
  destruct (H eq_refl) as (H1 & _ & _ & H4).
  repeat split; trivial.
Defined.

(** ** The blocks of a valid input *)

Lemma input_tokens_In (keys : pyset) (refs : list string) (t : string) :
  In t (input_tokens keys refs)
  <-> exists r, In r refs
                /\ ((set_mem r keys = true /\ t = r)
                    \/ (set_mem r keys = false /\ t = "python-self." ++ r)).
Proof.
  unfold input_tokens. rewrite in_app_iff, in_map_iff. unfold sorted.
  rewrite sorted_by_In, set_of_list_In, filter_In. split.
  - intros [[Hr Hm]|(r & <- & Hr)].
    + exists t. auto.
    + apply sorted_by_In, set_diff_In in Hr as [Hr Hn].
      rewrite set_of_list_In in Hr, Hn. rewrite filter_In in Hn.
      exists r. split; [exact Hr | right]. split; [| reflexivity].
      destruct (set_mem r keys); [elim Hn; auto | reflexivity].
  - intros (r & Hr & [[Hm ->]|[Hm ->]]); [left; auto | right].
    exists r. split; [reflexivity |].
    apply sorted_by_In, set_diff_In. rewrite !set_of_list_In, filter_In.
    split; [exact Hr |]. intros [_ H]. congruence.
Qed.

Lemma input_tokens_nil (keys : pyset) (refs : list string) :
  input_tokens keys refs = [] <-> refs = [].
Proof.
  split; [| intros ->; reflexivity].
  destruct refs as [|r refs]; [reflexivity |]. intros H. exfalso.
  destruct (set_mem r keys) eqn:Hm.
  - assert (In r (input_tokens keys (r :: refs))) as Hin
      by (apply input_tokens_In; exists r; split; [now left | auto]).
    now rewrite H in Hin.
  - assert (In ("python-self." ++ r) (input_tokens keys (r :: refs))) as Hin
      by (apply input_tokens_In; exists r; split; [now left | auto]).
    now rewrite H in Hin.
Qed.

Lemma input_list_tight (keys : pyset) (refs : list string) :
  Forall (fun t => is_token t = true) refs ->
  strip (input_list keys refs) = input_list keys refs
  /\ (input_list keys refs = "" <-> refs = []).
Proof.
  intros H. pose proof (input_tokens_are_tokens keys refs H) as Ht.
  unfold input_list. destruct (input_tokens keys refs) as [|t ts] eqn:E.
  - apply input_tokens_nil in E. subst. split; [reflexivity | tauto].
  - destruct (join_tokens_tight " " (t :: ts)) as [Hs He];
      [discriminate | exact Ht |].
    split.
    + unfold strip. rewrite rstrip_tight by exact He. now apply lstrip_tight.
    + split; intros H0.
      * rewrite H0 in Hs. discriminate.
      * subst refs. discriminate.
Qed.

Section Blocks.

Variable self : OverlaysGenerator.
Variable pkgs : list ResolvedPkg.
Hypothesis valid : valid_input self pkgs = true.

Lemma input_list_no_linebreak (refs : list string) :
  Forall (fun t => is_token t = true) refs ->
  no_linebreak (input_list (overlay_keys self pkgs) refs) = true.
Proof.
  intros H. unfold input_list. rewrite <- inputs_str_tokens by exact H.
  now apply inputs_str_no_linebreak.
Qed.

(** The block of a package, line by line. *)
Lemma block_of_lines (p : ResolvedPkg) :
  In p pkgs ->
  let keys := overlay_keys self pkgs in
  let bi := input_list keys (build_refs self pkgs p) in
  let pbi := input_list keys (prop_build_refs self pkgs p) in
  block_of self pkgs p
  = if exists_ (nixpkgs self) (name p) None
    then unlines (override_lines (ref_of self p) (name p) (ver p) bi pbi
                                 (disable_checks self))
         ++ unlines (map (alias_line (ref_of self p))
                         (other_names self (name p) (ref_of self p)))
    else unlines (fresh_lines (name p) (ver p) bi pbi (disable_checks self)).
Proof.
  intros Hp keys bi pbi.
  destruct (valid_pkg self pkgs valid p Hp) as (Hn & Hv & Hr & _ & _).
  pose proof (build_refs_tokens self pkgs valid p Hp) as Hb.
  pose proof (prop_build_refs_tokens self pkgs valid p Hp) as Hpb.
  unfold block_of, block_text. fold keys.
  fold (build_refs self pkgs p). fold (prop_build_refs self pkgs p).
  rewrite (inputs_str_tokens keys _ Hb), (inputs_str_tokens keys _ Hpb).
  fold (input_list keys (build_refs self pkgs p)).
  fold (input_list keys (prop_build_refs self pkgs p)). fold bi pbi.
  destruct (exists_ (nixpkgs self) (name p) None).
  - rewrite gen_overrideAttrs_lines, gen_unify_nixpkgs_keys_lines;
      trivial; try (now apply input_list_no_linebreak).
    now apply is_token_no_linebreak.
  - rewrite gen_builPythonPackage_lines;
      trivial; now apply input_list_no_linebreak.
Qed.

Lemma deps_of_nil (bs : list string) :
  (forall b, In b bs -> In b (map name pkgs)) ->
  (map (ref_of self) (deps_of pkgs bs) = [] <-> bs = []).
Proof.
  intros H. destruct (deps_of_names pkgs bs H) as [_ E].
  split.
  - intros H0. apply map_eq_nil in H0. rewrite H0 in E. exact E.
  - intros ->. reflexivity.
Qed.

Lemma overlaid_names_NoDup : NoDup (map name (overlaid_pkgs self pkgs)).
Proof.
  pose proof (sorted_names_NoDup pkgs (valid_NoDup self pkgs valid)) as H.
  unfold overlaid_pkgs. induction (sorted_by name pkgs) as [|q l IH];
    [constructor |].
  cbn [map] in H. inversion H as [|? ? Hq Hl]; subst.
  cbn [filter]. destruct (_needs_overlay self (name q) (ver q)); [| now apply IH].
  cbn [map]. constructor; [| now apply IH].
  intros Hin. apply Hq. apply in_map_iff in Hin as (r & E & Hr).
  apply filter_In in Hr as [Hr _]. rewrite <- E. now apply in_map.
Qed.

End Blocks.

Lemma filter_name_unique (l : list ResolvedPkg) (p : ResolvedPkg) :
  NoDup (map name l) -> In p l ->
  filter (fun q => String.eqb (name q) (name p)) l = [p].
Proof.
  induction l as [|q l IH]; [contradiction |].
  cbn [map]. intros Hnd Hin. inversion Hnd as [|? ? Hq Hl]; subst.
  cbn [filter]. destruct Hin as [->|Hin].
  - rewrite String.eqb_refl. f_equal.
    clear IH Hnd Hl. induction l as [|r l IH]; [reflexivity |].
    cbn [filter]. destruct (String.eqb_spec (name r) (name p)) as [E|_].
    + elim Hq. left. exact E.
    + apply IH. intros H. apply Hq. now right.
  - destruct (String.eqb_spec (name q) (name p)) as [E|_]; [| now apply IH].
    elim Hq. rewrite E. now apply in_map.
Qed.

Lemma truthy_false (s : string) : truthy s = false -> s = "".
Proof. destruct s; [reflexivity | discriminate]. Qed.

Lemma StronglySorted_filter {A : Type} (R : A -> A -> Prop) (f : A -> bool)
  (l : list A) :
  StronglySorted R l -> StronglySorted R (filter f l).
Proof.
  induction 1 as [|x l Hl IH Hx]; [constructor |].
  cbn [filter]. destruct (f x); [| exact IH].
  constructor; [exact IH |].
  rewrite Forall_forall in *. intros y Hy. apply Hx.
  now apply filter_In in Hy.
Qed.

(** C6. On a valid input the output ends with the environment, which has
    one line for each root package, with the reference of the package; the
    root packages are listed once each and by name. *)
Theorem root_completeness self (pkgs : list ResolvedPkg) :
  valid_input self pkgs = true ->
  let roots := root_pkgs pkgs in
  (exists pre,
      generate self pkgs
      = Ok (pre ++ unlines (env_lines self (map (ref_of self) roots))))
  /\ (roots <> [] ->
      env_lines self (map (ref_of self) roots)
      = List.app
          [ "in";
            "";
            "with import nixpkgs_src { overlays = [ overlay ]; };";
            "";
            py_ver_nix self ++ ".withPackages (ps: with ps; [" ]
          (List.app (map (fun p => "  " ++ ref_of self p) roots) [ "])" ]))
  /\ (forall p, In p roots <-> In p pkgs /\ is_root p = true)
  /\ NoDup roots
  /\ StronglySorted (fun p q => String.leb (name p) (name q) = true) roots.
Proof.
  intros valid roots. split; [| split; [| split; [| split]]].
  - exists (_gen_imports self
            ++ overlays_header self
            ++ join "" (map (block_of self pkgs) (overlaid_pkgs self pkgs))
            ++ overlays_footer).
    rewrite (generate_ok self pkgs valid). unfold generated_text.
    now rewrite !append_assoc.
  - intros Hne. rewrite env_lines_refs, map_map; [reflexivity |].
    intros H. apply map_eq_nil in H. contradiction.
  - intros p. apply root_pkgs_In.
  - apply (NoDup_filter is_root), (NoDup_map_inv name).
    apply sorted_names_NoDup, (valid_NoDup self pkgs valid).
  - apply StronglySorted_filter. apply (sorted_by_StronglySorted name).
Qed.

Lemma root_completeness_witness :
  valid_input (gen index true) pkgs_c = true
  /\ (exists pre,
         generate (gen index true) pkgs_c
         = Ok (pre ++ unlines (env_lines (gen index true)
                                 (map (ref_of (gen index true))
                                      (root_pkgs pkgs_c)))))
  /\ map name (root_pkgs pkgs_c) = ["A"; "C"].
Proof.
  split; [reflexivity | split; [| reflexivity]].
  exact (proj1 (root_completeness (gen index true) pkgs_c eq_refl)).
Defined.

(** C8. The block of a package that needs an overlay and that the index
    knows is an override block.  Its key is the identifier the index
    chooses; it has the label of name and version and the source of name
    and version; it has the line of an input list exactly when the package
    has such inputs, and the line appends to the list of the overridden
    package; the alias lines follow it. *)
Theorem override_block self (pkgs : list ResolvedPkg) (p : ResolvedPkg) :
  valid_input self pkgs = true ->
  In p pkgs ->
  _needs_overlay self (name p) (ver p) = true ->
  exists_ (nixpkgs self) (name p) None = true ->
  let key := find_best_nixpkgs_candidate (nixpkgs self) (name p) (ver p) in
  let bi := input_list (overlay_keys self pkgs) (build_refs self pkgs p) in
  let pbi := input_list (overlay_keys self pkgs) (prop_build_refs self pkgs p) in
  generate self pkgs = Ok (generated_text self pkgs)
  /\ In p (overlaid_pkgs self pkgs)
  /\ block_of self pkgs p
     = unlines
         (List.app
            [ "        " ++ key ++ " = python-super." ++ key ++ ".overrideAttrs ( oldAttrs: {";
              "          name = " ++ dq ++ name p ++ "-" ++ ver p ++ dq ++ ";";
              "          src = fetchPypi " ++ dq ++ name p ++ dq ++ " " ++ dq ++ ver p ++ dq ++ ";" ]
         (List.app
            match build_inputs p with
            | [] => []
            | _ => ["          buildInputs = oldAttrs.buildInputs ++ [ " ++ bi ++ " ];"]
            end
         (List.app
            match prop_build_inputs p with
            | [] => []
            | _ => ["          propagatedBuildInputs = oldAttrs.propagatedBuildInputs ++ [ " ++ pbi ++ " ];"]
            end
         (List.app
            (if disable_checks self
             then ["          doCheck = false;"; "          doInstallCheck = false;"]
             else [])
            ["        });"]))))
       ++ unlines (map (alias_line key) (other_names self (name p) key))
  /\ (bi = "" <-> build_inputs p = [])
  /\ (pbi = "" <-> prop_build_inputs p = []).
Proof.
  intros valid Hp Hneeds Hex key bi pbi.
  destruct (valid_pkg self pkgs valid p Hp) as (_ & _ & _ & Hb & Hpb).
  assert (bi = "" <-> build_inputs p = []) as Ebi.
  { unfold bi. rewrite <- (deps_of_nil self pkgs _ Hb).
    apply input_list_tight, (build_refs_tokens self pkgs valid p Hp). }
  assert (pbi = "" <-> prop_build_inputs p = []) as Epbi.
  { unfold pbi. rewrite <- (deps_of_nil self pkgs _ Hpb).
    apply input_list_tight, (prop_build_refs_tokens self pkgs valid p Hp). }
  split; [now apply generate_ok | split; [now apply overlaid_pkgs_In |]].
  split; [| now split].
  rewrite (block_of_lines self pkgs valid p Hp), Hex.
  assert (ref_of self p = key) as ->
    by (unfold ref_of, _get_ref_name; now rewrite Hex).
  fold bi pbi. unfold override_lines. do 4 f_equal.
  - destruct (build_inputs p) as [|b bs].
    + now rewrite (proj2 Ebi eq_refl).
    + destruct (truthy bi) eqn:T; [reflexivity |].
      apply truthy_false, Ebi in T. discriminate.
  - f_equal. destruct (prop_build_inputs p) as [|b bs].
    + now rewrite (proj2 Epbi eq_refl).
    + destruct (truthy pbi) eqn:T; [reflexivity |].
      apply truthy_false, Epbi in T. discriminate.
Qed.

Lemma override_block_witness :
  valid_input without_checks pkgs_b = true
  /\ In pkg_b pkgs_b
  /\ _needs_overlay without_checks (name pkg_b) (ver pkg_b) = true
  /\ exists_ (nixpkgs without_checks) (name pkg_b) None = true
  /\ generate without_checks pkgs_b
     = Ok (generated_text without_checks pkgs_b)
  /\ block_of without_checks pkgs_b pkg_b
     = unlines [ "        idA = python-super.idA.overrideAttrs ( oldAttrs: {";
                 "          name = " ++ dq ++ "B-2.0" ++ dq ++ ";";
                 "          src = fetchPypi " ++ dq ++ "B" ++ dq ++ " " ++ dq ++ "2.0" ++ dq ++ ";";
                 "          doCheck = false;";
                 "          doInstallCheck = false;";
                 "        });";
                 "        idB = idA;" ].
Proof.
  assert (In pkg_b pkgs_b) as Hp by now left.
  pose proof (override_block without_checks pkgs_b pkg_b
                eq_refl Hp eq_refl eq_refl)
    as (Hg & _ & Hblock & _).
  repeat split; trivial.
Defined.

(** C9. On a valid input, the block of a package that needs an overlay
    lists, for each of its two input lists, the references of the inputs:
    a reference that is an overlay key as it is, any other reference with
    the prefix of the index; and only packages that need an overlay have a
    block. *)
Theorem input_references self (pkgs : list ResolvedPkg) (p : ResolvedPkg) :
  valid_input self pkgs = true ->
  In p pkgs ->
  _needs_overlay self (name p) (ver p) = true ->
  let keys := overlay_keys self pkgs in
  let bi := input_list keys (build_refs self pkgs p) in
  let pbi := input_list keys (prop_build_refs self pkgs p) in
  generate self pkgs = Ok (generated_text self pkgs)
  /\ (forall q, In q (overlaid_pkgs self pkgs)
                <-> In q pkgs /\ _needs_overlay self (name q) (ver q) = true)
  /\ block_of self pkgs p
     = (if exists_ (nixpkgs self) (name p) None
        then unlines (override_lines (ref_of self p) (name p) (ver p) bi pbi
                                     (disable_checks self))
             ++ unlines (map (alias_line (ref_of self p))
                             (other_names self (name p) (ref_of self p)))
        else unlines (fresh_lines (name p) (ver p) bi pbi
                                  (disable_checks self)))
  /\ strip bi = bi /\ strip pbi = pbi
  /\ (forall refs t,
         In t (input_tokens keys refs)
         <-> exists r,
               In r refs
               /\ ((set_mem r keys = true /\ t = r)
                   \/ (set_mem r keys = false /\ t = "python-self." ++ r))).
Proof.
  intros valid Hp Hneeds keys bi pbi.
  split; [now apply generate_ok |].
  split; [intros q; apply overlaid_pkgs_In |].
  split; [now apply block_of_lines |].
  split; [apply input_list_tight, (build_refs_tokens self pkgs valid p Hp) |].
  split;
    [apply input_list_tight, (prop_build_refs_tokens self pkgs valid p Hp) |].
  intros refs t. apply input_tokens_In.
Qed.

(** Scenario (d): the block of [E] refers to [F] with the prefix, and [F]
    has no block. *)
Lemma input_references_witness :
  valid_input with_checks pkgs_d = true
  /\ In pkg_e pkgs_d
  /\ _needs_overlay with_checks (name pkg_e) (ver pkg_e) = true
  /\ generate with_checks pkgs_d = Ok (generated_text with_checks pkgs_d)
  /\ ~ In pkg_f (overlaid_pkgs with_checks pkgs_d)
  /\ block_of with_checks pkgs_d pkg_e
     = unlines [ "        E = python.pkgs.buildPythonPackage {";
                 "          name = " ++ dq ++ "E-1.0" ++ dq ++ ";";
                 "          src = fetchPypi " ++ dq ++ "E" ++ dq ++ " " ++ dq ++ "1.0" ++ dq ++ ";";
                 "          buildInputs = [ python-self.F ];";
                 "        };" ]
  /\ In "python-self.F"
        (input_tokens (overlay_keys with_checks pkgs_d)
                      (build_refs with_checks pkgs_d pkg_e)).
Proof.
  assert (In pkg_e pkgs_d) as He by now left.
  pose proof (input_references with_checks pkgs_d pkg_e eq_refl He eq_refl)
    as (Hg & Hov & Hblock & _ & _ & Htok).
  split; [reflexivity | split; [exact He | split; [reflexivity |]]].
  split; [exact Hg | split; [| split]].
  - intros Hf. apply Hov in Hf as [_ Hf]. discriminate Hf.
  - rewrite Hblock. reflexivity.
  - apply Htok. exists "F". split; [now left | right]. split; reflexivity.
Defined.

Lemma other_names_In self (n master k : string) :
  In k (other_names self n master)
  <-> In k (map nix_key (get_all_candidates (nixpkgs self) n)) /\ k <> master.
Proof.
  unfold other_names, sorted.
  rewrite sorted_by_In, filter_In, negb_true_iff, String.eqb_neq.
  reflexivity.
Qed.

(** ** Lines that differ *)

Lemma append_cancel_r (a b c : string) : a ++ c = b ++ c -> a = b.
Proof.
  revert b. induction a as [|x a IH]; intros [|y b] H; cbn [append] in H.
  - reflexivity.
  - exfalso. apply (f_equal String.length) in H.
    cbn [String.length] in H. rewrite length_append in H. lia.
  - exfalso. apply (f_equal String.length) in H.
    cbn [String.length] in H. rewrite length_append in H. lia.
  - injection H as -> H. now rewrite (IH b H).
Qed.

Lemma not_space (c : ascii) : negb (isspace c) = true -> c <> " "%char.
Proof. intros H ->. discriminate H. Qed.

(** Two texts that begin with a word and a space begin with the same
    word. *)
Lemma token_split (a b r s : string) :
  no_space a = true -> no_space b = true ->
  a ++ String " " r = b ++ String " " s -> a = b /\ r = s.
Proof.
  unfold no_space. revert b.
  induction a as [|x a IH]; intros [|y b] Ha Hb H; cbn [append] in H;
    cbn [all_chars] in Ha, Hb.
  - injection H as ->. auto.
  - injection H as <- _. apply andb_true_iff in Hb as [Hb _].
    now apply not_space in Hb.
  - injection H as -> _. apply andb_true_iff in Ha as [Ha _].
    now apply not_space in Ha.
  - injection H as -> H.
    apply andb_true_iff in Ha as [_ Ha]. apply andb_true_iff in Hb as [_ Hb].
    destruct (IH b Ha Hb H) as [-> ->]. auto.
Qed.

Lemma leading_spaces_token (t r : string) :
  is_token t = true -> leading_spaces (t ++ r) = 0.
Proof.
  unfold is_token, no_space. destruct t as [|c t]; [discriminate |].
  cbn [truthy all_chars andb append leading_spaces]. intros H.
  apply andb_true_iff in H as [H _]. apply not_space in H.
  now destruct (Ascii.eqb_spec c " ").
Qed.

Lemma no_space_with_space (a b : string) : no_space (a ++ String " " b) = false.
Proof.
  unfold no_space. rewrite all_chars_app. cbn [all_chars].
  apply andb_false_r.
Qed.

Lemma alias_line_leading (m k : string) :
  is_token k = true -> leading_spaces (alias_line m k) = 8.
Proof.
  intros H. unfold alias_line. cbn [append leading_spaces Ascii.eqb Bool.eqb].
  now rewrite leading_spaces_token.
Qed.

Lemma override_key_line_leading (k : string) :
  is_token k = true -> leading_spaces (override_key_line k) = 8.
Proof.
  intros H. unfold override_key_line.
  cbn [append leading_spaces Ascii.eqb Bool.eqb].
  now rewrite leading_spaces_token.
Qed.

Lemma alias_line_inj (m k m' k' : string) :
  no_space k = true -> no_space k' = true ->
  alias_line m k = alias_line m' k' -> k = k' /\ m = m'.
Proof.
  intros Hk Hk' H. unfold alias_line in H. cbn [append] in H.
  repeat injection H as H.
  apply token_split in H as [-> H]; trivial.
  split; [reflexivity |]. injection H as H. now apply append_cancel_r in H.
Qed.

Lemma alias_line_not_key_line (m k key : string) :
  no_space k = true -> no_space m = true -> no_space key = true ->
  alias_line m k <> override_key_line key.
Proof.
  intros Hk Hm Hkey H. unfold alias_line, override_key_line in H.
  cbn [append] in H. repeat injection H as H.
  apply token_split in H as [_ H]; trivial.
  cbn [append] in H. injection H as H.
  apply (f_equal no_space) in H. unfold no_space in H.
  cbn [all_chars] in H. rewrite !all_chars_app in H.
  fold (no_space m) (no_space key) in H. rewrite Hm, Hkey in H.
  vm_compute in H. discriminate H.
Qed.

Lemma alias_line_not_fresh_key (m k n : string) :
  no_space k = true -> no_space m = true -> no_space n = true ->
  alias_line m k <> fresh_key_line n.
Proof.
  intros Hk Hm Hn H. unfold alias_line, fresh_key_line in H.
  cbn [append] in H. repeat injection H as H.
  apply token_split in H as [_ H]; trivial.
  cbn [append] in H. injection H as H.
  apply (f_equal no_space) in H. unfold no_space in H.
  rewrite all_chars_app in H. fold (no_space m) in H. rewrite Hm in H.
  vm_compute in H. discriminate H.
Qed.

Lemma alias_line_not_closing (m k c : string) :
  no_space c = true -> alias_line m k <> "        " ++ c.
Proof.
  intros Hc H. unfold alias_line in H. cbn [append] in H.
  repeat injection H as H.
  apply (f_equal no_space) in H.
  change (" = " ++ m ++ ";") with (String " " ("= " ++ m ++ ";")) in H.
  rewrite no_space_with_space, Hc in H. discriminate H.
Qed.

Lemma override_key_line_inj (k k' : string) :
  no_space k = true -> no_space k' = true ->
  override_key_line k = override_key_line k' -> k = k'.
Proof.
  intros Hk Hk' H. unfold override_key_line in H. cbn [append] in H.
  repeat injection H as H.
  now apply token_split in H as [-> _].
Qed.

Lemma override_key_line_not_fresh (k n : string) :
  no_space k = true -> no_space n = true ->
  override_key_line k <> fresh_key_line n.
Proof.
  intros Hk Hn H. unfold override_key_line, fresh_key_line in H.
  cbn [append] in H. repeat injection H as H.
  apply token_split in H as [_ H]; trivial.
  cbn [append] in H. discriminate H.
Qed.

Lemma override_key_line_not_closing (k c : string) :
  no_space c = true -> override_key_line k <> "        " ++ c.
Proof.
  intros Hc H. unfold override_key_line in H. cbn [append] in H.
  repeat injection H as H.
  apply (f_equal no_space) in H.
  change (" = python-super." ++ k ++ ".overrideAttrs ( oldAttrs: {")
    with (String " " ("= python-super." ++ k ++ ".overrideAttrs ( oldAttrs: {"))
    in H.
  rewrite no_space_with_space, Hc in H. discriminate H.
Qed.

(** ** The lines of a block *)

Lemma In_override_rest (x nix_name name ver bi pbi : string) (dc : bool) :
  In x (tl (override_lines nix_name name ver bi pbi dc)) ->
  leading_spaces x = 10 \/ x = "        });".
Proof.
  unfold override_lines.
  destruct (truthy bi), (truthy pbi), dc; cbn [app In tl]; intros H;
    repeat destruct H as [H|H]; try contradiction; subst x;
    first [ left; reflexivity | right; reflexivity ].
Qed.

Lemma In_fresh_rest (x name ver bi pbi : string) (dc : bool) :
  In x (tl (fresh_lines name ver bi pbi dc)) ->
  leading_spaces x = 10 \/ x = "        };".
Proof.
  unfold fresh_lines.
  destruct (truthy (strip bi)), (truthy (strip pbi)), dc;
    cbn [app In tl]; intros H;
    repeat destruct H as [H|H]; try contradiction; subst x;
    first [ left; reflexivity | right; reflexivity ].
Qed.

Lemma override_lines_cons (nix_name name ver bi pbi : string) (dc : bool) :
  override_lines nix_name name ver bi pbi dc
  = override_key_line nix_name
    :: tl (override_lines nix_name name ver bi pbi dc).
Proof. reflexivity. Qed.

Lemma fresh_lines_cons (name ver bi pbi : string) (dc : bool) :
  fresh_lines name ver bi pbi dc
  = fresh_key_line name :: tl (fresh_lines name ver bi pbi dc).
Proof. reflexivity. Qed.

(** A line that begins with eight spaces and a word is none of the lines
    behind the first line of a block. *)
Lemma not_in_override_rest (x c nix_name name ver bi pbi : string)
  (dc : bool) :
  leading_spaces x = 8 -> x <> "        " ++ c -> c = "});" ->
  ~ In x (tl (override_lines nix_name name ver bi pbi dc)).
Proof.
  intros H8 Hc -> H. apply In_override_rest in H as [H|H]; [lia | auto].
Qed.

Lemma not_in_fresh_rest (x c name ver bi pbi : string) (dc : bool) :
  leading_spaces x = 8 -> x <> "        " ++ c -> c = "};" ->
  ~ In x (tl (fresh_lines name ver bi pbi dc)).
Proof.
  intros H8 Hc -> H. apply In_fresh_rest in H as [H|H]; [lia | auto].
Qed.

Lemma alias_line_injective (m k k' : string) :
  alias_line m k = alias_line m k' -> k = k'.
Proof.
  unfold alias_line. cbn [append]. intros H. repeat injection H as H.
  now apply append_cancel_r in H.
Qed.

Section BlockLines.

Variable self : OverlaysGenerator.
Variable pkgs : list ResolvedPkg.
Hypothesis valid : valid_input self pkgs = true.
Hypothesis identifiers :
  forall q, In q pkgs ->
    Forall (fun k => is_token k = true)
           (map nix_key (get_all_candidates (nixpkgs self) (name q))).

Lemma other_names_tokens (q : ResolvedPkg) (m k : string) :
  In q pkgs -> In k (other_names self (name q) m) -> is_token k = true.
Proof.
  intros Hq Hk. apply other_names_In in Hk as [Hk _].
  pose proof (identifiers q Hq) as H. rewrite Forall_forall in H. auto.
Qed.

Lemma ref_of_fresh (q : ResolvedPkg) :
  exists_ (nixpkgs self) (name q) None = false -> ref_of self q = name q.
Proof. intros H. unfold ref_of, _get_ref_name. now rewrite H. Qed.

(** The alias lines of a block. *)
Lemma In_block_alias (q : ResolvedPkg) (m k : string) :
  In q pkgs -> is_token k = true -> is_token m = true ->
  In (alias_line m k) (block_lines self pkgs q) ->
  exists_ (nixpkgs self) (name q) None = true
  /\ ref_of self q = m /\ In k (other_names self (name q) m).
Proof.
  intros Hq Hk Hm H.
  destruct (valid_pkg self pkgs valid q Hq) as (_ & _ & Hr & _ & _).
  pose proof (is_token_no_space _ Hk) as Hk'.
  pose proof (is_token_no_space _ Hm) as Hm'.
  pose proof (is_token_no_space _ Hr) as Hr'.
  pose proof (alias_line_leading m k Hk) as H8.
  unfold block_lines in H.
  destruct (exists_ (nixpkgs self) (name q) None) eqn:Hex.
  - split; [reflexivity |]. apply in_app_iff in H as [H|H].
    + exfalso. rewrite override_lines_cons in H. destruct H as [H|H].
      * symmetry in H. now apply alias_line_not_key_line in H.
      * revert H. eapply not_in_override_rest; [exact H8 | | reflexivity].
        now apply alias_line_not_closing.
    + apply in_map_iff in H as (k' & E & Hin).
      assert (no_space k' = true) as Hk''
        by (apply is_token_no_space; eapply other_names_tokens; eauto).
      apply alias_line_inj in E as [-> E]; trivial.
      rewrite <- E. auto.
  - exfalso. rewrite (ref_of_fresh q Hex) in Hr'.
    rewrite fresh_lines_cons in H. destruct H as [H|H].
    + symmetry in H. now apply alias_line_not_fresh_key in H.
    + revert H. eapply not_in_fresh_rest; [exact H8 | | reflexivity].
      now apply alias_line_not_closing.
Qed.

(** The first line of an override block. *)
Lemma In_block_key (q : ResolvedPkg) (key : string) :
  In q pkgs -> is_token key = true ->
  In (override_key_line key) (block_lines self pkgs q) ->
  exists_ (nixpkgs self) (name q) None = true /\ ref_of self q = key.
Proof.
  intros Hq Hk H.
  destruct (valid_pkg self pkgs valid q Hq) as (_ & _ & Hr & _ & _).
  pose proof (is_token_no_space _ Hk) as Hk'.
  pose proof (is_token_no_space _ Hr) as Hr'.
  pose proof (override_key_line_leading key Hk) as H8.
  unfold block_lines in H.
  destruct (exists_ (nixpkgs self) (name q) None) eqn:Hex.
  - split; [reflexivity |]. apply in_app_iff in H as [H|H].
    + rewrite override_lines_cons in H. destruct H as [H|H].
      * now apply override_key_line_inj in H.
      * exfalso. revert H.
        eapply not_in_override_rest; [exact H8 | | reflexivity].
        now apply override_key_line_not_closing.
    + exfalso. apply in_map_iff in H as (k' & E & Hin).
      apply alias_line_not_key_line in E; trivial.
      apply is_token_no_space. eapply other_names_tokens; eauto.
  - exfalso. rewrite (ref_of_fresh q Hex) in Hr'.
    rewrite fresh_lines_cons in H. destruct H as [H|H].
    + symmetry in H. now apply override_key_line_not_fresh in H.
    + revert H. eapply not_in_fresh_rest; [exact H8 | | reflexivity].
      now apply override_key_line_not_closing.
Qed.

Lemma count_block_key (p : ResolvedPkg) :
  In p pkgs -> exists_ (nixpkgs self) (name p) None = true ->
  count_occ string_dec (block_lines self pkgs p)
            (override_key_line (ref_of self p)) = 1.
Proof.
  intros Hp Hex.
  destruct (valid_pkg self pkgs valid p Hp) as (_ & _ & Hr & _ & _).
  pose proof (is_token_no_space _ Hr) as Hr'.
  unfold block_lines. rewrite Hex, count_occ_app, override_lines_cons.
  rewrite count_occ_cons_eq by reflexivity.
  rewrite (proj1 (count_occ_not_In string_dec _ _)).
  - rewrite (proj1 (count_occ_not_In string_dec _ _)); [reflexivity |].
    intros H. apply in_map_iff in H as (k' & E & Hin).
    apply alias_line_not_key_line in E; trivial.
    apply is_token_no_space. eapply other_names_tokens; eauto.
  - eapply not_in_override_rest;
      [now apply override_key_line_leading | | reflexivity].
    now apply override_key_line_not_closing.
Qed.

Lemma count_block_alias (p : ResolvedPkg) (k : string) :
  In p pkgs -> exists_ (nixpkgs self) (name p) None = true ->
  NoDup (map nix_key (get_all_candidates (nixpkgs self) (name p))) ->
  In k (other_names self (name p) (ref_of self p)) ->
  count_occ string_dec (block_lines self pkgs p)
            (alias_line (ref_of self p) k) = 1.
Proof.
  intros Hp Hex Hnd Hk.
  destruct (valid_pkg self pkgs valid p Hp) as (_ & _ & Hr & _ & _).
  pose proof (is_token_no_space _ Hr) as Hr'.
  pose proof (other_names_tokens p _ k Hp Hk) as Ht.
  pose proof (is_token_no_space _ Ht) as Ht'.
  unfold block_lines. rewrite Hex, count_occ_app, override_lines_cons.
  rewrite count_occ_cons_neq
    by (intros E; symmetry in E; now apply alias_line_not_key_line in E).
  rewrite (proj1 (count_occ_not_In string_dec _ _)).
  - apply NoDup_count_occ'; [| now apply in_map].
    apply Finite.Injective_map_NoDup.
    + intros a b. apply alias_line_injective.
    + unfold other_names, sorted.
      eapply Permutation_NoDup;
        [apply Permutation_sym, sorted_by_perm | now apply NoDup_filter].
  - eapply not_in_override_rest;
      [now apply alias_line_leading | | reflexivity].
    now apply alias_line_not_closing.
Qed.

(** The block is the text of its lines, and the lines have no line
    boundary. *)
Lemma block_of_unlines (p : ResolvedPkg) :
  In p pkgs -> block_of self pkgs p = unlines (block_lines self pkgs p).
Proof.
  intros Hp. rewrite (block_of_lines self pkgs valid p Hp).
  unfold block_lines.
  destruct (exists_ (nixpkgs self) (name p) None); [| reflexivity].
  now rewrite unlines_app.
Qed.

Lemma block_lines_no_linebreak (p : ResolvedPkg) :
  In p pkgs ->
  Forall (fun l => no_linebreak l = true) (block_lines self pkgs p).
Proof.
  intros Hp.
  destruct (valid_pkg self pkgs valid p Hp) as (Hn & Hv & Hr & _ & _).
  pose proof (input_list_no_linebreak self pkgs _
                (build_refs_tokens self pkgs valid p Hp)) as Hb.
  pose proof (input_list_no_linebreak self pkgs _
                (prop_build_refs_tokens self pkgs valid p Hp)) as Hpb.
  apply is_token_no_linebreak in Hr.
  unfold block_lines.
  destruct (exists_ (nixpkgs self) (name p) None).
  - apply Forall_app. split; [now apply override_lines_no_linebreak |].
    apply Forall_forall. intros l Hl. apply in_map_iff in Hl as (k & <- & Hk).
    apply other_names_tokens, is_token_no_linebreak in Hk; [| exact Hp].
    unfold alias_line. rewrite !no_linebreak_app, Hk, Hr. reflexivity.
  - now apply fresh_lines_no_linebreak.
Qed.

Lemma blocks_unlines (l : list ResolvedPkg) :
  (forall q, In q l -> In q pkgs) ->
  join "" (map (block_of self pkgs) l)
  = unlines (flat_map (block_lines self pkgs) l).
Proof.
  induction l as [|q l IH]; intros H; [reflexivity |].
  cbn [map flat_map]. rewrite join_nil_cons, unlines_app.
  rewrite IH by (intros; apply H; now right).
  now rewrite block_of_unlines by (apply H; now left).
Qed.

End BlockLines.

(** ** The lines of the whole text *)

Lemma clean_pins_py self : clean_pins self = true -> is_token (py_ver_nix self) = true.
Proof. unfold clean_pins. intros H. now apply andb_true_iff in H. Qed.

Lemma gen_imports_unlines self :
  clean_pins self = true -> _gen_imports self = unlines (import_lines self).
Proof.
  intros H. pose proof (clean_pins_py self H) as H5.
  apply is_token_no_linebreak in H5.
  unfold clean_pins in H. repeat (apply andb_true_iff in H as [H ?]).
  unfold import_lines.
  rewrite <- (unindent_template 12 12); [| lia | lia | no_linebreak_lines].
  unfold _gen_imports. f_equal. same_text.
Qed.

Lemma count_occ_lines (x : string) (ls : list string) :
  count_occ string_dec (map (fun l => l ++ nl) ls) (x ++ nl)
  = count_occ string_dec ls x.
Proof.
  induction ls as [|l ls IH]; [reflexivity |]. cbn [map].
  destruct (string_dec l x) as [->|Hne].
  - now rewrite !count_occ_cons_eq, IH.
  - rewrite !count_occ_cons_neq; trivial.
    intros E. now apply append_nl_inj in E.
Qed.

Lemma count_occ_flat_map_one {A : Type} (f : A -> list string) (x : string)
  (l : list A) (p : A) :
  NoDup l -> In p l ->
  (forall q, In q l -> q <> p -> ~ In x (f q)) ->
  count_occ string_dec (flat_map f l) x = count_occ string_dec (f p) x.
Proof.
  induction l as [|q l IH]; [contradiction |].
  intros Hnd Hp Hx. inversion Hnd as [|? ? Hq Hl]; subst.
  cbn [flat_map]. rewrite count_occ_app. destruct Hp as [->|Hp].
  - rewrite (proj1 (count_occ_not_In string_dec (flat_map f l) x)); [lia |].
    intros H. apply in_flat_map in H as (r & Hr & H).
    apply (Hx r); [now right | | exact H]. intros ->. contradiction.
  - rewrite (proj1 (count_occ_not_In string_dec (f q) x)).
    + apply IH; trivial. intros r Hr. apply Hx. now right.
    + apply Hx; [now left |]. intros ->. contradiction.
Qed.

Section OutputLines.

Variable self : OverlaysGenerator.
Variable pkgs : list ResolvedPkg.
Hypothesis valid : valid_input self pkgs = true.
Hypothesis pins : clean_pins self = true.
Hypothesis identifiers :
  forall q, In q pkgs ->
    Forall (fun k => is_token k = true)
           (map nix_key (get_all_candidates (nixpkgs self) (name q))).

Lemma generated_text_lines :
  generated_text self pkgs = unlines (output_lines self pkgs).
Proof.
  unfold generated_text, output_lines.
  rewrite !unlines_app, (gen_imports_unlines self pins).
  rewrite (blocks_unlines self pkgs valid).
  - rewrite !append_assoc. reflexivity.
  - intros q Hq. now apply overlaid_pkgs_In in Hq.
Qed.

Lemma output_lines_no_linebreak :
  Forall (fun l => no_linebreak l = true) (output_lines self pkgs).
Proof.
  pose proof (clean_pins_py self pins) as H5.
  apply is_token_no_linebreak in H5.
  pose proof pins as H. unfold clean_pins in H.
  repeat (apply andb_true_iff in H as [H ?]).
  unfold output_lines. rewrite !Forall_app. repeat split.
  - unfold import_lines. no_linebreak_lines.
  - unfold overlay_open. no_linebreak_lines.
  - apply Forall_flat_map, Forall_forall. intros q Hq.
    apply overlaid_pkgs_In in Hq as [Hq _].
    now apply block_lines_no_linebreak.
  - unfold overlay_close. no_linebreak_lines.
  - apply env_lines_no_linebreak; [exact H5 |].
    now apply root_refs_tokens.
Qed.

Lemma splitlines_generated_text :
  splitlines (generated_text self pkgs)
  = map (fun l => l ++ nl) (output_lines self pkgs).
Proof.
  rewrite generated_text_lines.
  apply splitlines_unlines, output_lines_no_linebreak.
Qed.

(** Outside the blocks, no line begins with just eight spaces. *)
Lemma import_lines_leading :
  Forall (fun l => leading_spaces l <> 8) (import_lines self).
Proof. unfold import_lines. repeat constructor; discriminate. Qed.

Lemma overlay_open_leading :
  Forall (fun l => leading_spaces l <> 8) (overlay_open self).
Proof.
  unfold overlay_open. repeat constructor; try discriminate.
  cbn [append leading_spaces Ascii.eqb Bool.eqb].
  rewrite leading_spaces_token by now apply clean_pins_py.
  discriminate.
Qed.

Lemma overlay_close_leading :
  Forall (fun l => leading_spaces l <> 8) overlay_close.
Proof. unfold overlay_close. repeat constructor; discriminate. Qed.

Lemma env_lines_leading (refs : list string) :
  Forall (fun t => is_token t = true) refs ->
  Forall (fun l => leading_spaces l <> 8) (env_lines self refs).
Proof.
  intros Hrefs. unfold env_lines. rewrite !Forall_app. repeat split.
  - repeat constructor; try discriminate.
    rewrite leading_spaces_token by now apply clean_pins_py.
    discriminate.
  - destruct refs as [|r refs]; [repeat constructor; discriminate |].
    apply Forall_forall. intros l Hl.
    apply in_map_iff in Hl as (t & <- & Ht).
    rewrite Forall_forall in Hrefs.
    cbn [append leading_spaces Ascii.eqb Bool.eqb].
    rewrite <- (append_nil_r t), leading_spaces_token by auto. discriminate.
  - repeat constructor; discriminate.
Qed.

Lemma not_in_leading (x : string) (ls : list string) :
  leading_spaces x = 8 ->
  Forall (fun l => leading_spaces l <> 8) ls -> ~ In x ls.
Proof.
  intros H8 H Hin. rewrite Forall_forall in H. now apply (H x Hin).
Qed.

(** A line that begins with just eight spaces is a line of a block. *)
Lemma In_output_lines (x : string) :
  leading_spaces x = 8 ->
  (In x (output_lines self pkgs)
   <-> exists q, In q (overlaid_pkgs self pkgs)
                 /\ In x (block_lines self pkgs q)).
Proof.
  intros H8. unfold output_lines. rewrite !in_app_iff, in_flat_map.
  pose proof (not_in_leading x _ H8 import_lines_leading).
  pose proof (not_in_leading x _ H8 overlay_open_leading).
  pose proof (not_in_leading x _ H8 overlay_close_leading).
  pose proof (not_in_leading x _ H8
                (env_lines_leading _ (root_refs_tokens self pkgs valid))).
  tauto.
Qed.

Lemma count_output_lines (x : string) :
  leading_spaces x = 8 ->
  count_occ string_dec (output_lines self pkgs) x
  = count_occ string_dec
      (flat_map (block_lines self pkgs) (overlaid_pkgs self pkgs)) x.
Proof.
  intros H8. unfold output_lines. rewrite !count_occ_app.
  rewrite (proj1 (count_occ_not_In string_dec (import_lines self) x))
    by (apply (not_in_leading x _ H8 import_lines_leading)).
  rewrite (proj1 (count_occ_not_In string_dec (overlay_open self) x))
    by (apply (not_in_leading x _ H8 overlay_open_leading)).
  rewrite (proj1 (count_occ_not_In string_dec overlay_close x))
    by (apply (not_in_leading x _ H8 overlay_close_leading)).
  rewrite (proj1 (count_occ_not_In string_dec (env_lines self _) x))
    by (apply (not_in_leading x _ H8
                 (env_lines_leading _ (root_refs_tokens self pkgs valid)))).
  lia.
Qed.

Lemma overlaid_pkgs_NoDup : NoDup (overlaid_pkgs self pkgs).
Proof.
  apply (NoDup_map_inv name), overlaid_names_NoDup. exact valid.
Qed.

End OutputLines.

(** ** Several identifiers for one name *)

Lemma override_key_line_nl (k : string) :
  "        " ++ k ++ " = python-super." ++ k ++ ".overrideAttrs ( oldAttrs: {" ++ nl
  = override_key_line k ++ nl.
Proof. unfold override_key_line. now rewrite !append_assoc. Qed.

Lemma alias_line_nl (m k : string) :
  "        " ++ k ++ " = " ++ m ++ ";" ++ nl = alias_line m k ++ nl.
Proof. unfold alias_line. now rewrite !append_assoc. Qed.

Lemma same_name_same_pkg (l : list ResolvedPkg) (p q : ResolvedPkg) :
  NoDup (map name l) -> In p l -> In q l -> name q = name p -> q = p.
Proof.
  induction l as [|x l IH]; [contradiction |].
  cbn [map]. intros Hnd Hp Hq E. inversion Hnd as [|? ? Hx Hl]; subst.
  destruct Hp as [->|Hp], Hq as [->|Hq]; auto.
  - elim Hx. rewrite <- E. now apply in_map.
  - elim Hx. rewrite E. now apply in_map.
Qed.




(** ** Two listings of one resolved set *)

Lemma insert_sorted_Forall2 {A : Type} (R : A -> A -> Prop)
  (key : A -> string) (x y : A) (l l' : list A) :
  (forall a b, R a b -> key a = key b) ->
  R x y -> Forall2 R l l' ->
  Forall2 R (insert_sorted key x l) (insert_sorted key y l').
Proof.
  intros Hkey Hxy Hl. induction Hl as [|a b l l' Hab Hl IH]; simpl.
  - repeat constructor. exact Hxy.
  - rewrite <- (Hkey x y Hxy), <- (Hkey a b Hab).
    destruct (String.leb (key x) (key a)); repeat constructor; trivial.
Qed.

Lemma sorted_by_Forall2 {A : Type} (R : A -> A -> Prop) (key : A -> string)
  (l l' : list A) :
  (forall a b, R a b -> key a = key b) ->
  Forall2 R l l' -> Forall2 R (sorted_by key l) (sorted_by key l').
Proof.
  intros Hkey Hl. induction Hl as [|a b l l' Hab Hl IH]; simpl.
  - constructor.
  - now apply insert_sorted_Forall2.
Qed.

Lemma dict_set_same (d d' : Dict.t ResolvedPkg) (k : string)
  (v v' : ResolvedPkg) :
  Forall2 same_item d d' -> same_pkg v v' ->
  Forall2 same_item (Dict.set d k v) (Dict.set d' k v').
Proof.
  intros Hd Hv. induction Hd as [|[a p] [b q] d d' [Hab Hpq] Hd IH]; simpl.
  - constructor; [now split | constructor].
  - cbn [fst snd] in *. subst b.
    destruct (String.eqb k a); constructor; trivial; now split.
Qed.

Lemma dict_of_items_same (items items' : list (string * ResolvedPkg)) :
  Forall2 same_item items items' ->
  Forall2 same_item (Dict.of_items items) (Dict.of_items items').
Proof.
  unfold Dict.of_items. intros H.
  assert (Forall2 same_item (@nil (string * ResolvedPkg)) []) as Hacc
    by constructor.
  revert Hacc. generalize (@nil (string * ResolvedPkg)) at 1 3 as acc.
  generalize (@nil (string * ResolvedPkg)) as acc'.
  induction H as [|[a p] [b q] items items' [Hab Hpq] H IH];
    intros acc' acc Hacc; simpl; [exact Hacc |].
  cbn [fst snd] in *. subst b. apply IH. now apply dict_set_same.
Qed.

Lemma dict_get_same (d d' : Dict.t ResolvedPkg) (k : string) :
  Forall2 same_item d d' ->
  match Dict.get d k, Dict.get d' k with
  | Ok p, Ok q => same_pkg p q
  | KeyError a, KeyError b => a = b
  | _, _ => False
  end.
Proof.
  intros Hd. induction Hd as [|[a p] [b q] d d' [Hab Hpq] Hd IH]; simpl.
  - reflexivity.
  - cbn [fst snd] in *. subst b. destruct (String.eqb k a); trivial.
Qed.

Lemma ref_lookup_same self (d d' : Dict.t ResolvedPkg) (b : string) :
  Forall2 same_item d d' ->
  (p <- Dict.get d b ;; Ok (_get_ref_name self b (ver p)))
  = (p <- Dict.get d' b ;; Ok (_get_ref_name self b (ver p))).
Proof.
  intros Hd. pose proof (dict_get_same d d' b Hd) as H.
  destruct (Dict.get d b) as [p|a], (Dict.get d' b) as [q|a'];
    cbn [bind]; try contradiction.
  - destruct H as (_ & -> & _). reflexivity.
  - now subst.
Qed.

Lemma mapM_ext {A B : Type} (f g : A -> result B) (l : list A) :
  (forall x, f x = g x) -> mapM f l = mapM g l.
Proof.
  intros H. induction l as [|x l IH]; [reflexivity |].
  simpl. now rewrite H, IH.
Qed.

Lemma mapM_all_ok {A B : Type} (f : A -> result B) (l : list A) :
  (forall x, In x l -> exists y, f x = Ok y) -> exists ys, mapM f l = Ok ys.
Proof.
  induction l as [|x l IH]; intros H; [now exists [] |].
  destruct (H x (or_introl eq_refl)) as [y Hy].
  destruct IH as [ys Hys]; [intros; apply H; now right |].
  exists (y :: ys). simpl. now rewrite Hy, Hys.
Qed.

Lemma Forall2_In_l {A B : Type} (R : A -> B -> Prop) (l : list A)
  (l' : list B) (x : A) :
  Forall2 R l l' -> In x l -> exists y, In y l' /\ R x y.
Proof.
  induction 1 as [|a b l l' Hab H IH]; [contradiction |].
  intros [->|Hin].
  - exists b. split; [now left | exact Hab].
  - destruct (IH Hin) as (y & Hy & Hxy). exists y. split; [now right | exact Hxy].
Qed.

Lemma Forall2_In_r {A B : Type} (R : A -> B -> Prop) (l : list A)
  (l' : list B) (y : B) :
  Forall2 R l l' -> In y l' -> exists x, In x l /\ R x y.
Proof.
  induction 1 as [|a b l l' Hab H IH]; [contradiction |].
  intros [->|Hin].
  - exists a. split; [now left | exact Hab].
  - destruct (IH Hin) as (x & Hx & Hxy). exists x. split; [now right | exact Hxy].
Qed.

(** A comprehension over two listings of one set fails on both or on none,
    and its values are the same. *)
Lemma mapM_same_elements {A B : Type} (f : A -> result B) (l l' : list A) :
  (forall x, In x l <-> In x l') ->
  match mapM f l, mapM f l' with
  | Ok ys, Ok ys' => forall y, In y ys <-> In y ys'
  | KeyError _, KeyError _ => True
  | _, _ => False
  end.
Proof.
  intros H.
  destruct (mapM f l) as [ys|k] eqn:E, (mapM f l') as [ys'|k'] eqn:E';
    trivial.
  - apply mapM_ok_inv in E, E'. intros y. split; intros Hy.
    + destruct (Forall2_In_r _ _ _ y E Hy) as (x & Hx & Hxy).
      apply H in Hx. destruct (Forall2_In_l _ _ _ x E' Hx) as (y' & Hy' & Hxy').
      congruence.
    + destruct (Forall2_In_r _ _ _ y E' Hy) as (x & Hx & Hxy).
      apply H in Hx. destruct (Forall2_In_l _ _ _ x E Hx) as (y' & Hy' & Hxy').
      congruence.
  - apply mapM_ok_inv in E. apply mapM_error in E' as (x & Hx & Hfx).
    apply H in Hx. destruct (Forall2_In_l _ _ _ x E Hx) as (y & _ & Hy).
    congruence.
  - apply mapM_ok_inv in E'. apply mapM_error in E as (x & Hx & Hfx).
    apply H in Hx. destruct (Forall2_In_l _ _ _ x E' Hx) as (y & _ & Hy).
    congruence.
Qed.

(** The sorted listing of a set does not depend on how the set is listed. *)
Lemma sorted_same_elements (a b : pyset) :
  NoDup a -> NoDup b -> (forall x, In x a <-> In x b) -> sorted a = sorted b.
Proof.
  intros Ha Hb H. apply (sorted_by_permutation (fun s : string => s)).
  - now rewrite map_id.
  - now apply NoDup_Permutation.
Qed.

Lemma inputs_str_same_elements (keys : pyset) (refs refs' : list string) :
  (forall r, In r refs <-> In r refs') ->
  inputs_str keys refs = inputs_str keys refs'.
Proof.
  intros H. unfold inputs_str, _gen_build_inputs.
  assert (forall r, In r (set_of_list (filter (fun b => set_mem b keys) refs))
                    <-> In r (set_of_list
                                (filter (fun b => set_mem b keys) refs')))
    as Hlocal.
  { intros r. rewrite !set_of_list_In, !filter_In, H. reflexivity. }
  assert (sorted (set_of_list (filter (fun b => set_mem b keys) refs))
          = sorted (set_of_list (filter (fun b => set_mem b keys) refs')))
    as E1
    by (apply sorted_same_elements; trivial; apply set_of_list_NoDup).
  assert (sorted (set_diff (set_of_list refs)
                    (set_of_list (filter (fun b => set_mem b keys) refs)))
          = sorted (set_diff (set_of_list refs')
                      (set_of_list (filter (fun b => set_mem b keys) refs'))))
    as E2.
  { apply sorted_same_elements;
      try (apply set_diff_NoDup, set_of_list_NoDup).
    intros r. rewrite !set_diff_In, !set_of_list_In, !filter_In, H.
    reflexivity. }
  cbv zeta. now rewrite E1, E2.
Qed.

Lemma Forall2_filter {A : Type} (R : A -> A -> Prop) (f g : A -> bool)
  (l l' : list A) :
  (forall x y, R x y -> f x = g y) ->
  Forall2 R l l' -> Forall2 R (filter f l) (filter g l').
Proof.
  intros Hfg H. induction H as [|x y l l' Hxy H IH]; [constructor |].
  cbn [filter]. rewrite (Hfg x y Hxy).
  destruct (g y); [now constructor | exact IH].
Qed.

Lemma mapM_Forall2_eq {A B : Type} (f g : A -> result B) (l l' : list A) :
  Forall2 (fun x y => f x = g y) l l' -> mapM f l = mapM g l'.
Proof.
  induction 1 as [|x y l l' Hxy H IH]; [reflexivity |].
  simpl. now rewrite Hxy, IH.
Qed.

Lemma mapM_Forall2_output {A B : Type} (f g : A -> result B)
  (l l' : list A) :
  Forall2 (fun x y => output (f x) = output (g y)) l l' ->
  output (mapM f l) = output (mapM g l').
Proof.
  induction 1 as [|x y l l' Hxy H IH]; [reflexivity |].
  simpl. destruct (f x) as [a|k], (g y) as [b|k']; simpl in Hxy;
    try discriminate; [| reflexivity].
  injection Hxy as ->. cbn [bind].
  destruct (mapM f l) as [ys|k], (mapM g l') as [ys'|k']; simpl in IH;
    try discriminate; [| reflexivity].
  injection IH as ->. reflexivity.
Qed.

(** The block of a package does not depend on the listing of its inputs,
    nor does the failure to make it. *)
Lemma gen_overlays_pkg_same self (d d' : Dict.t ResolvedPkg) (keys : pyset)
  (p q : ResolvedPkg) :
  Forall2 same_item d d' -> same_pkg p q ->
  output (_gen_overlays_pkg self d keys p)
  = output (_gen_overlays_pkg self d' keys q).
Proof.
  intros Hd (Hn & Hv & _ & Hb & Hpb). unfold _gen_overlays_pkg.
  rewrite !(mapM_ext
              (fun b => p <- Dict.get d' b ;; Ok (_get_ref_name self b (ver p)))
              (fun b => p <- Dict.get d b ;; Ok (_get_ref_name self b (ver p))))
    by (intros b; symmetry; now apply ref_lookup_same).
  pose proof (mapM_same_elements
                (fun b => p <- Dict.get d b ;;
                          Ok (_get_ref_name self b (ver p)))
                _ _ Hb) as H1.
  pose proof (mapM_same_elements
                (fun b => p <- Dict.get d b ;;
                          Ok (_get_ref_name self b (ver p)))
                _ _ Hpb) as H2.
  destruct (mapM _ (build_inputs p)) as [r1|k1],
           (mapM _ (build_inputs q)) as [r1'|k1'];
    try contradiction; cbn [bind]; [| reflexivity].
  destruct (mapM _ (prop_build_inputs p)) as [r2|k2],
           (mapM _ (prop_build_inputs q)) as [r2'|k2'];
    try contradiction; cbn [bind]; [| reflexivity].
  pose proof (inputs_str_same_elements keys r1 r1' H1) as E1.
  pose proof (inputs_str_same_elements keys r2 r2' H2) as E2.
  unfold inputs_str in E1, E2. cbv zeta in E1, E2.
  unfold _gen_prop_build_inputs. unfold _gen_build_inputs in *.
  rewrite E1, E2, Hn, Hv. reflexivity.
Qed.

Lemma values_same (d d' : Dict.t ResolvedPkg) :
  Forall2 same_item d d' -> Forall2 same_pkg (Dict.values d) (Dict.values d').
Proof.
  induction 1 as [|x y d d' [_ Hxy] H IH]; simpl; constructor; trivial.
Qed.

Lemma gen_overlays_same self (d d' : Dict.t ResolvedPkg) (keys : pyset) :
  Forall2 same_item d d' ->
  output (_gen_overlays self d keys) = output (_gen_overlays self d' keys).
Proof.
  intros Hd. unfold _gen_overlays.
  rewrite !(foldM_append (fun p => set_mem (name p) keys)).
  assert (output (mapM (_gen_overlays_pkg self d keys)
                       (filter (fun p => set_mem (name p) keys)
                               (Dict.values d)))
          = output (mapM (_gen_overlays_pkg self d' keys)
                         (filter (fun p => set_mem (name p) keys)
                                 (Dict.values d')))) as H.
  { apply mapM_Forall2_output.
    apply Forall2_impl with (R1 := same_pkg);
      [intros p q Hpq; now apply gen_overlays_pkg_same |].
    apply Forall2_filter; [| now apply values_same].
    intros p q (Hn & _). now rewrite Hn. }
  destruct (mapM _ _) as [bs|k], (mapM _ _) as [bs'|k']; simpl in H;
    try discriminate; [| reflexivity].
  injection H as ->. reflexivity.
Qed.

Lemma overlay_names_same self (l l' : list ResolvedPkg) :
  Forall2 same_pkg l l' ->
  map name (filter (fun p => _needs_overlay self (name p) (ver p)) l)
  = map name (filter (fun p => _needs_overlay self (name p) (ver p)) l').
Proof.
  induction 1 as [|p q l l' (Hn & Hv & _) H IH]; [reflexivity |].
  cbn [filter]. rewrite Hn, Hv.
  destruct (_needs_overlay self (name q) (ver q)); cbn [map];
    now rewrite ?Hn, IH.
Qed.

Lemma gen_python_env_same self (d d' : Dict.t ResolvedPkg) :
  Forall2 same_item d d' ->
  output (_gen_python_env self d) = output (_gen_python_env self d').
Proof.
  intros Hd. unfold _gen_python_env.
  rewrite (overlay_names_same self _ _ (values_same d d' Hd)).
  pose proof (gen_overlays_same self d d'
                (set_of_list
                   (map name
                      (filter (fun p => _needs_overlay self (name p) (ver p))
                              (Dict.values d')))) Hd) as H.
  destruct (_gen_overlays self d _) as [o|k],
           (_gen_overlays self d' _) as [o'|k']; simpl in H;
    try discriminate; [| reflexivity].
  injection H as ->. cbn [bind].
  rewrite (mapM_Forall2_eq
             (fun item : string * ResolvedPkg =>
                p <- Dict.get d (fst item) ;;
                Ok (_get_ref_name self (fst item) (ver p) ++ nl ++ spaces 14))
             (fun item : string * ResolvedPkg =>
                p <- Dict.get d' (fst item) ;;
                Ok (_get_ref_name self (fst item) (ver p) ++ nl ++ spaces 14))
             _ (filter (fun item => is_root (snd item)) (Dict.items d')));
    [reflexivity |].
  apply Forall2_impl with (R1 := same_item).
  - intros x y [Hxy _]. rewrite <- Hxy.
    pose proof (dict_get_same d d' (fst x) Hd) as H.
    destruct (Dict.get d (fst x)) as [p|a], (Dict.get d' (fst x)) as [q|a'];
      cbn [bind]; try contradiction.
    + destruct H as (_ & -> & _). reflexivity.
    + now subst.
  - apply Forall2_filter; [| exact Hd].
    intros x y (_ & _ & _ & Hr & _). exact Hr.
Qed.

(** C5. Two runs on the same configuration and the same resolved set
    return the same text, or both fail: the result does not depend on the
    order in which the inputs of a package are listed, the only freedom
    the iteration over a set leaves. *)
Theorem generate_deterministic self (pkgs pkgs' : list ResolvedPkg) :
  Forall2 same_pkg pkgs pkgs' ->
  output (generate self pkgs) = output (generate self pkgs').
Proof.
  intros H. unfold generate.
  apply gen_python_env_same, dict_of_items_same.
  apply sorted_by_Forall2.
  - intros x y (_ & Hn & _). exact Hn.
  - induction H as [|p q l l' Hpq H IH]; cbn [map]; constructor; trivial.
    split; [apply Hpq | exact Hpq].
Qed.

Lemma generate_deterministic_witness :
  Forall2 same_pkg pkgs_s pkgs_s'
  /\ output (generate without_checks pkgs_s)
     = output (generate without_checks pkgs_s')
  /\ exists out, output (generate without_checks pkgs_s) = Some out.
Proof.
  assert (Forall2 same_pkg pkgs_s pkgs_s') as H.
  { assert (forall p, same_pkg p p) as Hrefl
      by (intros p; unfold same_pkg; tauto).
    constructor; [| constructor; [apply Hrefl |]];
      [| constructor; [apply Hrefl | constructor]].
    unfold same_pkg. simpl. tauto. }
  split; [exact H | split].
  - exact (generate_deterministic without_checks _ _ H).
  - eexists. vm_compute. reflexivity.
Defined.

(** * Further properties *)

(** ** [unindent] *)

Lemma cut_zero (s : string) : cut 0 0 s = s.
Proof.
  induction s as [|c s IH]; [reflexivity |].
  cbn [cut]. destruct (ends_line c s); cbn [Nat.pred]; now rewrite IH.
Qed.

(** X1. Removing no character gives the text back: the lines that
    [splitlines] makes, joined, are the text. *)
Theorem unindent_zero (text : string) : unindent text 0 = text.
Proof. rewrite unindent_cut. apply cut_zero. Qed.

Lemma ends_line_before_newline (c : ascii) (a b : string) :
  ends_line c (a ++ nl ++ b) = ends_line c (a ++ nl).
Proof. unfold ends_line. now destruct a. Qed.

Lemma cut_at_newline (n : nat) (a b : string) :
  forall k, cut n k (a ++ nl ++ b) = cut n k (a ++ nl) ++ cut n n b.
Proof.
  induction a as [|c a IH]; intros k.
  - destruct k; reflexivity.
  - cbn [append cut]. rewrite ends_line_before_newline.
    destruct k; [cbn [append]; f_equal |]; apply IH.
Qed.

(** X2. [unindent] works line by line: behind a newline it starts again,
    whatever is before the newline. *)
Theorem unindent_at_newline (a b : string) (remove : nat) :
  unindent (a ++ nl ++ b) remove
  = unindent (a ++ nl) remove ++ unindent b remove.
Proof. rewrite !unindent_cut. apply cut_at_newline. Qed.

Lemma slice_from_app (n : nat) (a b : string) :
  slice_from n (a ++ b) = slice_from n a ++ slice_from (n - String.length a) b.
Proof.
  revert n. induction a as [|c a IH]; intros n.
  - cbn [append String.length]. now rewrite Nat.sub_0_r, slice_from_nil.
  - destruct n; [reflexivity |]. cbn [append slice_from String.length].
    apply IH.
Qed.

Lemma cut_first_line (n : nat) (l rest : string) :
  no_linebreak l = true ->
  cut n n (l ++ nl ++ rest) = slice_from n (l ++ nl) ++ cut n n rest.
Proof.
  intros Hl. rewrite (cut_no_linebreak n l _ Hl n), cut_newline, slice_from_app.
  rewrite append_assoc. f_equal.
  destruct (n - String.length l); [reflexivity |].
  destruct n0; reflexivity.
Qed.

(** X3. Of a line, [unindent] removes the first [remove] characters,
    white space or not, and the newline of the line when the line is
    shorter than that. *)
Theorem unindent_first_line (l rest : string) (remove : nat) :
  no_linebreak l = true ->
  unindent (l ++ nl ++ rest) remove
  = slice_from remove (l ++ nl) ++ unindent rest remove.
Proof. intros Hl. rewrite !unindent_cut. now apply cut_first_line. Qed.

Lemma unindent_first_line_witness :
  no_linebreak "ab cd" = true
  /\ unindent ("ab cd" ++ nl ++ "  x") 3
     = slice_from 3 ("ab cd" ++ nl) ++ unindent "  x" 3
  /\ unindent ("ab cd" ++ nl ++ "  x") 3 = "cd" ++ nl.
Proof.
  split; [reflexivity | split; [| reflexivity]].
  exact (unindent_first_line "ab cd" "  x" 3 eq_refl).
Defined.

Lemma slice_from_short (n : nat) (s : string) :
  String.length s <= n -> slice_from n s = "".
Proof.
  revert n. induction s as [|c s IH]; intros n H; [apply slice_from_nil |].
  destruct n; simpl in H; [lia |]. apply IH. lia.
Qed.



Lemma cut_length (n : nat) (s : string) :
  forall k, String.length (cut n k s) <= String.length s.
Proof.
  induction s as [|c s IH]; intros k; [reflexivity |].
  cbn [cut]. destruct k; cbn [String.length].
  - apply le_n_S, IH.
  - apply Nat.le_le_succ_r, IH.
Qed.

(** X5. [unindent] only removes characters: its result is not longer than
    the text. *)
Theorem unindent_length (text : string) (remove : nat) :
  String.length (unindent text remove) <= String.length text.
Proof. rewrite unindent_cut. apply cut_length. Qed.

(** X6. The use the generator makes of [unindent]: of a text that starts
    with a newline, goes on with lines that are indented by [remove] spaces
    and ends with at most [remove] spaces, the lines are left without their
    indentation. *)
Theorem unindent_indented_lines (remove last : nat) (ls : list string) :
  0 < remove -> last <= remove ->
  Forall (fun l => no_linebreak l = true) ls ->
  unindent (nl ++ unlines (map (fun l => spaces remove ++ l) ls) ++ spaces last)
           remove
  = unlines ls.
Proof. apply unindent_template. Qed.

Lemma unindent_indented_lines_witness :
  0 < 4 /\ 2 <= 4
  /\ Forall (fun l => no_linebreak l = true) ["a = {"; "  b;"; "}"]
  /\ unindent (nl ++ unlines (map (fun l => spaces 4 ++ l)
                                  ["a = {"; "  b;"; "}"])
                  ++ spaces 2) 4
     = unlines ["a = {"; "  b;"; "}"].
Proof.
  assert (Forall (fun l => no_linebreak l = true) ["a = {"; "  b;"; "}"])
    as H by (repeat constructor).
  split; [lia | split; [lia | split; [exact H |]]].
  apply (unindent_indented_lines 4 2 _); [lia | lia | exact H].
Defined.

(** ** The imports *)

(** X7. The imports, line by line, when the pins and the name of the
    interpreter have no line boundary: the fetcher of the sources and the
    package repository, each pinned by its commit and by the hash of its
    archive, and the interpreter. *)
Theorem gen_imports_lines self :
  no_linebreak (pypi_fetcher_commit self) = true ->
  no_linebreak (pypi_fetcher_tarball_sha256 self) = true ->
  no_linebreak (nixpkgs_commit self) = true ->
  no_linebreak (nixpkgs_tarball_sha256 self) = true ->
  no_linebreak (py_ver_nix self) = true ->
  _gen_imports self
  = unlines
      [ "let";
        "  fetchPypiSrc = builtins.fetchTarball {";
        "    name = " ++ dq ++ "nix-pypi-fetcher" ++ dq ++ ";";
        "    url = " ++ dq ++ "https://github.com/DavHau/nix-pypi-fetcher/tarball/" ++ pypi_fetcher_commit self ++ dq ++ ";";
        "    # Hash obtained using `nix-prefetch-url --unpack <url>`";
        "    sha256 = " ++ dq ++ pypi_fetcher_tarball_sha256 self ++ dq ++ ";";
        "  };";
        "  fetchPypi = import (fetchPypiSrc);";
        "  nixpkgs_src = builtins.fetchTarball {";
        "    name = " ++ dq ++ "nixpkgs" ++ dq ++ ";";
        "    url = " ++ dq ++ "https://github.com/nixos/nixpkgs/tarball/" ++ nixpkgs_commit self ++ dq ++ ";";
        "    sha256 = " ++ dq ++ nixpkgs_tarball_sha256 self ++ dq ++ ";";
        "  };";
        "  pkgs = import nixpkgs_src { config = {}; };";
        "  python = pkgs." ++ py_ver_nix self ++ ";" ].
Proof.
  intros H1 H2 H3 H4 H5.
  rewrite <- (unindent_template 12 12); [| lia | lia | no_linebreak_lines].
  unfold _gen_imports. f_equal. same_text.
Qed.

Lemma gen_imports_lines_witness :
  no_linebreak (pypi_fetcher_commit with_checks) = true
  /\ no_linebreak (pypi_fetcher_tarball_sha256 with_checks) = true
  /\ no_linebreak (nixpkgs_commit with_checks) = true
  /\ no_linebreak (nixpkgs_tarball_sha256 with_checks) = true
  /\ no_linebreak (py_ver_nix with_checks) = true
  /\ List.length (splitlines (_gen_imports with_checks)) = 15.
Proof.
  repeat (split; [reflexivity |]).
  rewrite (gen_imports_lines with_checks eq_refl eq_refl eq_refl eq_refl eq_refl).
  reflexivity.
Defined.

(** ** The alias lines *)

(** X8. [_gen_unify_nixpkgs_keys] makes one line for each of the keys it
    is given, in their order, and does not look at them: a key that is the
    master key gets its line too.  Leaving it out is up to the caller. *)
Theorem gen_unify_nixpkgs_keys_splitlines (master_key : string)
  (nixpkgs_keys : list string) :
  no_linebreak master_key = true ->
  Forall (fun k => no_linebreak k = true) nixpkgs_keys ->
  splitlines (_gen_unify_nixpkgs_keys master_key nixpkgs_keys)
  = map (fun key => "        " ++ key ++ " = " ++ master_key ++ ";" ++ nl)
        nixpkgs_keys.
Proof.
  intros Hm Hk. rewrite gen_unify_nixpkgs_keys_lines, splitlines_unlines.
  - rewrite map_map. apply map_ext. intros k. unfold alias_line.
    now rewrite !append_assoc.
  - apply Forall_forall. intros l Hl. apply in_map_iff in Hl as (k & <- & Hin).
    rewrite Forall_forall in Hk. unfold alias_line.
    rewrite !no_linebreak_app, (Hk k Hin), Hm. reflexivity.
Qed.

Lemma gen_unify_nixpkgs_keys_splitlines_witness :
  no_linebreak "idA" = true
  /\ Forall (fun k => no_linebreak k = true) ["idB"; "idA"]
  /\ splitlines (_gen_unify_nixpkgs_keys "idA" ["idB"; "idA"])
     = [ "        idB = idA;" ++ nl; "        idA = idA;" ++ nl ].
Proof.
  assert (Forall (fun k => no_linebreak k = true) ["idB"; "idA"]) as H
    by (repeat constructor).
  split; [reflexivity | split; [exact H |]].
  rewrite (gen_unify_nixpkgs_keys_splitlines "idA" _ eq_refl H). reflexivity.
Defined.

(** ** The block of a package that the index does not know *)

(** X9. On a valid input, the block of a package that the index does not
    know under its name builds the package from scratch: its key is the
    name of the package, which is also the reference of the package; an
    input list is a list of its own, not appended to another, and is there
    exactly when the package has such inputs; no alias line follows. *)
Theorem fresh_block self (pkgs : list ResolvedPkg) (p : ResolvedPkg) :
  valid_input self pkgs = true ->
  In p pkgs ->
  _needs_overlay self (name p) (ver p) = true ->
  exists_ (nixpkgs self) (name p) None = false ->
  let bi := input_list (overlay_keys self pkgs) (build_refs self pkgs p) in
  let pbi := input_list (overlay_keys self pkgs) (prop_build_refs self pkgs p) in
  generate self pkgs = Ok (generated_text self pkgs)
  /\ In p (overlaid_pkgs self pkgs)
  /\ ref_of self p = name p
  /\ block_of self pkgs p
     = unlines
         (List.app
            [ "        " ++ name p ++ " = python.pkgs.buildPythonPackage {";
              "          name = " ++ dq ++ name p ++ "-" ++ ver p ++ dq ++ ";";
              "          src = fetchPypi " ++ dq ++ name p ++ dq ++ " " ++ dq ++ ver p ++ dq ++ ";" ]
         (List.app
            match build_inputs p with
            | [] => []
            | _ => ["          buildInputs = [ " ++ bi ++ " ];"]
            end
         (List.app
            match prop_build_inputs p with
            | [] => []
            | _ => ["          propagatedBuildInputs = [ " ++ pbi ++ " ];"]
            end
         (List.app
            (if disable_checks self
             then ["          doCheck = false;"; "          doInstallCheck = false;"]
             else [])
            ["        };"])))).
Proof.
  intros valid Hp Hneeds Hex bi pbi.
  destruct (valid_pkg self pkgs valid p Hp) as (_ & _ & _ & Hb & Hpb).
  destruct (input_list_tight (overlay_keys self pkgs) _
              (build_refs_tokens self pkgs valid p Hp)) as [Sb Eb].
  destruct (input_list_tight (overlay_keys self pkgs) _
              (prop_build_refs_tokens self pkgs valid p Hp)) as [Sp Ep].
  fold bi in Sb, Eb. fold pbi in Sp, Ep.
  unfold build_refs in Eb. rewrite (deps_of_nil self pkgs _ Hb) in Eb.
  unfold prop_build_refs in Ep. rewrite (deps_of_nil self pkgs _ Hpb) in Ep.
  split; [now apply generate_ok | split; [now apply overlaid_pkgs_In |]].
  split; [unfold ref_of, _get_ref_name; now rewrite Hex |].
  rewrite (block_of_lines self pkgs valid p Hp), Hex.
  fold bi pbi. unfold fresh_lines. rewrite Sb, Sp. do 3 f_equal.
  - destruct (build_inputs p) as [|b bs].
    + now rewrite (proj2 Eb eq_refl).
    + destruct (truthy bi) eqn:T; [reflexivity |].
      apply truthy_false, Eb in T. discriminate.
  - f_equal. destruct (prop_build_inputs p) as [|b bs].
    + now rewrite (proj2 Ep eq_refl).
    + destruct (truthy pbi) eqn:T; [reflexivity |].
      apply truthy_false, Ep in T. discriminate.
Qed.

(** Scenario (c): [C], with the propagated input [D] that gets a block of
    its own. *)
Lemma fresh_block_witness :
  valid_input with_checks pkgs_c = true
  /\ In (pkg "C" "1.0" [] ["D"] true) pkgs_c
  /\ _needs_overlay with_checks "C" "1.0" = true
  /\ exists_ (nixpkgs with_checks) "C" None = false
  /\ block_of with_checks pkgs_c (pkg "C" "1.0" [] ["D"] true)
     = unlines [ "        C = python.pkgs.buildPythonPackage {";
                 "          name = " ++ dq ++ "C-1.0" ++ dq ++ ";";
                 "          src = fetchPypi " ++ dq ++ "C" ++ dq ++ " " ++ dq ++ "1.0" ++ dq ++ ";";
                 "          propagatedBuildInputs = [ D ];";
                 "        };" ].
Proof.
  assert (In (pkg "C" "1.0" [] ["D"] true) pkgs_c) as Hp by now left.
  pose proof (fresh_block with_checks pkgs_c _ eq_refl Hp eq_refl eq_refl)
    as (_ & _ & _ & Hblock).
  repeat split; trivial.
Defined.

(** ** Failures *)

Lemma dict_get_ok {V : Type} (d : Dict.t V) (k : string) :
  In k (Dict.keys d) -> exists v, Dict.get d k = Ok v.
Proof.
  induction d as [|[k' v] d IH]; simpl; [contradiction |].
  intros H. destruct (String.eqb_spec k k') as [->|Hne]; [now exists v |].
  apply IH. destruct H as [H|H]; [congruence | exact H].
Qed.

Lemma find_app {A : Type} (f : A -> bool) (l1 l2 : list A) :
  find f (l1 ++ l2)
  = match find f l1 with
    | Some x => Some x
    | None => find f l2
    end.
Proof.
  induction l1 as [|x l1 IH]; [reflexivity |].
  simpl. now destruct (f x).
Qed.

Lemma find_ext {A : Type} (f g : A -> bool) (l : list A) :
  (forall x, f x = g x) -> find f l = find g l.
Proof.
  intros H. induction l as [|x l IH]; [reflexivity |].
  simpl. now rewrite H, IH.
Qed.

(** The look-up of the inputs fails at the first input that is no key. *)
Lemma refs_first_missing self (d : Dict.t ResolvedPkg) (bs : list string) :
  match find (fun b => negb (set_mem b (Dict.keys d))) bs with
  | Some b =>
      mapM (fun b => p <- Dict.get d b ;; Ok (_get_ref_name self b (ver p))) bs
      = KeyError b
  | None =>
      exists refs,
        mapM (fun b => p <- Dict.get d b ;; Ok (_get_ref_name self b (ver p)))
             bs
        = Ok refs
  end.
Proof.
  induction bs as [|b bs IH]; [now exists [] |].
  cbn [find mapM]. destruct (set_mem b (Dict.keys d)) eqn:Hb; cbn [negb].
  - apply set_mem_In, dict_get_ok in Hb as [p ->]. cbn [bind].
    destruct (find _ bs) as [b'|].
    + now rewrite IH.
    + destruct IH as [refs ->]. cbn [bind]. now eexists.
  - apply not_true_iff_false in Hb. rewrite set_mem_In in Hb.
    now rewrite (dict_get_missing d b Hb).
Qed.

Lemma gen_overlays_pkg_first_missing self (d : Dict.t ResolvedPkg)
  (keys : pyset) (p : ResolvedPkg) :
  match find (fun b => negb (set_mem b (Dict.keys d)))
             (build_inputs p ++ prop_build_inputs p) with
  | Some b => _gen_overlays_pkg self d keys p = KeyError b
  | None => exists block, _gen_overlays_pkg self d keys p = Ok block
  end.
Proof.
  rewrite find_app. unfold _gen_overlays_pkg.
  pose proof (refs_first_missing self d (build_inputs p)) as H1.
  pose proof (refs_first_missing self d (prop_build_inputs p)) as H2.
  destruct (find _ (build_inputs p)) as [b|]; [now rewrite H1 |].
  destruct H1 as [r1 ->]. cbn [bind].
  destruct (find _ (prop_build_inputs p)) as [b|]; [now rewrite H2 |].
  destruct H2 as [r2 ->]. cbn [bind].
  destruct (exists_ (nixpkgs self) (name p) None); now eexists.
Qed.

Lemma first_missing_input_sorted (pkgs : list ResolvedPkg) (p : ResolvedPkg) :
  find (fun b => negb (set_mem b
                         (Dict.keys (pkg_items (sorted_by name pkgs)))))
       (build_inputs p ++ prop_build_inputs p)
  = first_missing_input pkgs p.
Proof.
  unfold first_missing_input. apply find_ext. intros b. f_equal.
  rewrite pkg_items_keys.
  destruct (set_mem b (map name pkgs)) eqn:H.
  - apply set_mem_In. apply set_mem_In in H.
    eapply Permutation_in; [| exact H].
    apply Permutation_map, Permutation_sym, sorted_by_perm.
  - apply not_true_iff_false. apply not_true_iff_false in H.
    rewrite set_mem_In in *. intros Hin. apply H.
    eapply Permutation_in; [| exact Hin].
    apply Permutation_map, sorted_by_perm.
Qed.

Lemma emitted_first_missing self (pkgs : list ResolvedPkg) (p : ResolvedPkg) :
  match first_missing_input pkgs p with
  | Some b => emitted self pkgs p = KeyError b
  | None => exists block, emitted self pkgs p = Ok block
  end.
Proof.
  rewrite <- first_missing_input_sorted. apply gen_overlays_pkg_first_missing.
Qed.

(** A comprehension fails at the first element on which its expression
    fails. *)
Lemma mapM_first_error {A B : Type} (f : A -> result B)
  (err : A -> option string) (l : list A) :
  (forall x, match err x with
             | Some k => f x = KeyError k
             | None => exists y, f x = Ok y
             end) ->
  match find (fun x => match err x with Some _ => true | None => false end) l
  with
  | Some x => match err x with
              | Some k => mapM f l = KeyError k
              | None => False
              end
  | None => exists ys, mapM f l = Ok ys
  end.
Proof.
  intros H. induction l as [|x l IH]; [now exists [] |].
  cbn [find mapM]. pose proof (H x) as Hx.
  destruct (err x) as [k|] eqn:E.
  - rewrite E. now rewrite Hx.
  - destruct Hx as [y ->]. cbn [bind].
    destruct (find _ l) as [x'|].
    + destruct (err x') as [k|]; [now rewrite IH | contradiction].
    + destruct IH as [ys ->]. cbn [bind]. now eexists.
Qed.

Lemma generate_returns self (pkgs : list ResolvedPkg) (blocks : list string) :
  NoDup (map name pkgs) ->
  mapM (emitted self pkgs) (overlaid_pkgs self pkgs) = Ok blocks ->
  exists out, generate self pkgs = Ok out.
Proof.
  intros Hnd H. rewrite (generate_sorted self pkgs Hnd).
  unfold _gen_python_env, _gen_overlays.
  rewrite (foldM_append
             (fun p => set_mem (name p)
                         (set_of_list
                            (map name
                               (filter
                                  (fun p => _needs_overlay self (name p) (ver p))
                                  (Dict.values
                                     (pkg_items (sorted_by name pkgs)))))))).
  rewrite pkg_items_values. fold (overlay_keys self pkgs).
  rewrite (overlaid_pkgs_filter self pkgs Hnd).
  change (mapM (_gen_overlays_pkg self (pkg_items (sorted_by name pkgs))
                                  (overlay_keys self pkgs)))
    with (mapM (emitted self pkgs)).
  rewrite H. cbn [bind].
  rewrite (root_lines_ok self _ (sorted_names_NoDup pkgs Hnd)). cbn [bind].
  now eexists.
Qed.

Lemma generate_first_failure self (pkgs : list ResolvedPkg) :
  NoDup (map name pkgs) ->
  match first_failure self pkgs with
  | Some b => generate self pkgs = KeyError b
  | None => exists out, generate self pkgs = Ok out
  end.
Proof.
  intros Hnd. unfold first_failure.
  pose proof (mapM_first_error (emitted self pkgs) (first_missing_input pkgs)
                (overlaid_pkgs self pkgs) (emitted_first_missing self pkgs))
    as H.
  destruct (find _ (overlaid_pkgs self pkgs)) as [p|].
  - destruct (first_missing_input pkgs p) as [b|]; [| contradiction].
    now apply generate_error.
  - destruct H as [blocks H]. now apply (generate_returns self pkgs blocks).
Qed.

(** X10. [generate] fails fast.  The packages are taken by name and those
    that need no overlay are skipped; of a package, the build inputs are
    looked up before the propagated ones, each list in its order.  The first
    input that is not the name of a resolved package is the key of the
    [KeyError]; when there is none, the generator returns a text. *)
Theorem generate_fails_fast self (pkgs : list ResolvedPkg) :
  NoDup (map name pkgs) ->
  match first_failure self pkgs with
  | Some b => generate self pkgs = KeyError b
  | None => exists out, generate self pkgs = Ok out
  end.
Proof. apply generate_first_failure. Qed.

Lemma generate_fails_fast_witness :
  NoDup (map name [ pkg "Z" "1" ["m1"] [] true;
                    pkg "Y" "1" ["Z"; "m2"] ["m3"] false;
                    pkg "G" "1.0" ["m0"] [] true ])
  /\ generate with_checks [ pkg "Z" "1" ["m1"] [] true;
                            pkg "Y" "1" ["Z"; "m2"] ["m3"] false;
                            pkg "G" "1.0" ["m0"] [] true ]
     = KeyError "m2".
Proof.
  assert (NoDup (map name [ pkg "Z" "1" ["m1"] [] true;
                            pkg "Y" "1" ["Z"; "m2"] ["m3"] false;
                            pkg "G" "1.0" ["m0"] [] true ])) as Hnd
    by (apply nodupb_NoDup; reflexivity).
  split; [exact Hnd |].
  exact (generate_fails_fast with_checks _ Hnd).
Defined.

(** X11. When the names are pairwise different, [generate] returns a text
    exactly when every input of every package that needs an overlay is the
    name of a resolved package.  The inputs of the other packages are not
    looked at. *)
Theorem generate_returns_iff self (pkgs : list ResolvedPkg) :
  NoDup (map name pkgs) ->
  (exists out, generate self pkgs = Ok out)
  <-> (forall q b,
          In q pkgs -> _needs_overlay self (name q) (ver q) = true ->
          In b (build_inputs q) \/ In b (prop_build_inputs q) ->
          In b (map name pkgs)).
Proof.
  intros Hnd. split.
  - intros [out Hout] q b Hq Hneeds Hb.
    destruct (in_dec string_dec b (map name pkgs)) as [Hin|Hn]; [exact Hin |].
    exfalso.
    assert (~ In b (Dict.keys (pkg_items (sorted_by name pkgs)))) as Hn'.
    { rewrite pkg_items_keys. intros Hin. apply Hn.
      eapply Permutation_in; [| exact Hin].
      apply Permutation_map, sorted_by_perm. }
    destruct (gen_overlays_pkg_fails self _ (overlay_keys self pkgs) q b Hb Hn')
      as [k0 Hk0].
    assert (In q (overlaid_pkgs self pkgs)) as Hov
      by (apply overlaid_pkgs_In; now split).
    destruct (mapM_fails _ _ q k0 Hov Hk0) as [k Hk].
    rewrite (generate_error self pkgs k Hnd Hk) in Hout. discriminate.
  - intros H.
    destruct (mapM_all_ok (emitted self pkgs) (overlaid_pkgs self pkgs))
      as [blocks Hblocks].
    + intros q Hq. apply overlaid_pkgs_In in Hq as [Hq Hneeds].
      destruct (names_are_pkgs pkgs (build_inputs q)) as (bd & Hbd & Eb);
        [intros b Hb; apply (H q b Hq Hneeds); now left |].
      destruct (names_are_pkgs pkgs (prop_build_inputs q)) as (pd & Hpd & Ep);
        [intros b Hb; apply (H q b Hq Hneeds); now right |].
      eexists. unfold emitted.
      apply (gen_overlays_pkg_ok self _ _ q bd pd); trivial.
      * now apply sorted_names_NoDup.
      * eapply Forall_impl; [| exact Hbd]. intros r. apply sorted_by_In.
      * eapply Forall_impl; [| exact Hpd]. intros r. apply sorted_by_In.
    + now apply (generate_returns self pkgs blocks).
Qed.

Lemma generate_returns_iff_witness :
  NoDup (map name pkgs_d)
  /\ exists out, generate with_checks pkgs_d = Ok out.
Proof.
  assert (NoDup (map name pkgs_d)) as Hnd
    by (apply nodupb_NoDup; reflexivity).
  split; [exact Hnd |].
  apply (generate_returns_iff with_checks pkgs_d Hnd).
  intros q b [<-|[<-|[]]] Hneeds [Hb|Hb]; try discriminate Hneeds;
    simpl in Hb; try contradiction.
  destruct Hb as [<-|[]]. right. now left.
Defined.

(** X12. When no package needs an overlay, [generate] returns a text
    whatever the inputs of the packages are, resolved or not: the overlay
    has no block, and the environment lists the root packages. *)
Theorem generate_without_overlay self (pkgs : list ResolvedPkg) :
  NoDup (map name pkgs) ->
  no_linebreak (py_ver_nix self) = true ->
  Forall (fun t => is_token t = true) (map (ref_of self) (root_pkgs pkgs)) ->
  (forall p, In p pkgs -> _needs_overlay self (name p) (ver p) = false) ->
  generate self pkgs
  = Ok (_gen_imports self
        ++ (overlays_header self ++ overlays_footer)
        ++ unlines (env_lines self (map (ref_of self) (root_pkgs pkgs)))).
Proof.
  intros Hnd Hpy Hrefs Hno.
  rewrite (generate_parts self pkgs Hnd Hpy Hrefs).
  assert (overlaid_pkgs self pkgs = []) as ->; [| reflexivity].
  destruct (overlaid_pkgs self pkgs) as [|p l] eqn:E; [reflexivity |].
  assert (In p (overlaid_pkgs self pkgs)) as Hp by (rewrite E; now left).
  apply overlaid_pkgs_In in Hp as [Hp Hneeds].
  rewrite (Hno p Hp) in Hneeds. discriminate.
Qed.

(** Scenario (e), with [G] in the index: its input [H] is not looked
    up. *)
Lemma generate_without_overlay_witness :
  NoDup (map name pkgs_e)
  /\ no_linebreak (py_ver_nix with_checks) = true
  /\ Forall (fun t => is_token t = true)
            (map (ref_of with_checks) (root_pkgs pkgs_e))
  /\ (forall p, In p pkgs_e ->
                 _needs_overlay with_checks (name p) (ver p) = false)
  /\ generate with_checks pkgs_e
     = Ok (_gen_imports with_checks
           ++ (overlays_header with_checks ++ overlays_footer)
           ++ unlines (env_lines with_checks ["G"])).
Proof.
  assert (NoDup (map name pkgs_e)) as Hnd
    by (apply nodupb_NoDup; reflexivity).
  assert (Forall (fun t => is_token t = true)
                 (map (ref_of with_checks) (root_pkgs pkgs_e))) as Hr
    by (repeat constructor).
  assert (forall p, In p pkgs_e ->
                    _needs_overlay with_checks (name p) (ver p) = false)
    as Hno by (intros p [<-|[]]; reflexivity).
  split; [exact Hnd | split; [reflexivity | split; [exact Hr |]]].
  split; [exact Hno |].
  exact (generate_without_overlay with_checks pkgs_e Hnd eq_refl Hr Hno).
Defined.

(** ** The order of the text *)



(** ** The references of the inputs *)

Lemma find_pkg_unique (pkgs : list ResolvedPkg) (q : ResolvedPkg) :
  NoDup (map name pkgs) -> In q pkgs -> find_pkg pkgs (name q) = Some q.
Proof.
  intros Hnd Hq. destruct (find_pkg_In pkgs (name q)) as (r & Hf & Hr & Hn);
    [now apply in_map |].
  rewrite Hf. f_equal.
  clear Hf. induction pkgs as [|x l IH]; [contradiction |].
  cbn [map] in Hnd. inversion Hnd as [|? ? Hx Hl]; subst.
  destruct Hq as [->|Hq], Hr as [->|Hr]; auto.
  - elim Hx. rewrite <- Hn. now apply in_map.
  - elim Hx. rewrite Hn. now apply in_map.
Qed.

Lemma deps_of_In (pkgs : list ResolvedPkg) (bs : list string)
  (q : ResolvedPkg) :
  NoDup (map name pkgs) -> In q pkgs -> In (name q) bs ->
  In q (deps_of pkgs bs).
Proof.
  intros Hnd Hq Hb. unfold deps_of. apply in_flat_map.
  exists (name q). split; [exact Hb |].
  rewrite (find_pkg_unique pkgs q Hnd Hq). now left.
Qed.

Lemma overlay_keys_In self (pkgs : list ResolvedPkg) (r : string) :
  set_mem r (overlay_keys self pkgs) = true
  <-> exists o, In o pkgs /\ _needs_overlay self (name o) (ver o) = true
                /\ name o = r.
Proof.
  rewrite set_mem_In. unfold overlay_keys.
  rewrite set_of_list_In, in_map_iff. split.
  - intros (o & Hn & Ho). apply filter_In in Ho as [Ho Hneeds].
    apply sorted_by_In in Ho. now exists o.
  - intros (o & Ho & Hneeds & Hn). exists o. split; [exact Hn |].
    apply filter_In. split; [now apply sorted_by_In | exact Hneeds].
Qed.

Lemma splitlines_unlines_app (ls : list string) (rest : string) :
  Forall (fun l => no_linebreak l = true) ls ->
  splitlines (unlines ls ++ rest)
  = (map (fun l => (l ++ nl)%string) ls ++ splitlines rest)%list.
Proof.
  induction 1 as [|l ls Hl _ IH]; [reflexivity |].
  rewrite unlines_cons, !append_assoc, (splitlines_line l _ Hl), IH.
  reflexivity.
Qed.

(** X14. How the block of a package [p] that needs an overlay refers to a
    build input [q], on a valid input.  The block has one line for the
    build inputs, which lists their references, separated by one space.
    The reference of [q] is listed as it is exactly when it is the name of
    a package that needs an overlay, and with the prefix of the index
    otherwise.  So an input that is built from scratch is listed by its
    name; an input that is overridden under an identifier of the index
    which is not the name of a package with a block is listed with the
    prefix, although the overlay defines it. *)
Theorem build_input_reference self (pkgs : list ResolvedPkg)
  (p q : ResolvedPkg) :
  valid_input self pkgs = true ->
  In p pkgs -> In q pkgs -> In (name q) (build_inputs p) ->
  _needs_overlay self (name p) (ver p) = true ->
  let tokens :=
    input_tokens (overlay_keys self pkgs) (build_refs self pkgs p) in
  generate self pkgs = Ok (generated_text self pkgs)
  /\ In p (overlaid_pkgs self pkgs)
  /\ In ("          buildInputs = "
         ++ (if exists_ (nixpkgs self) (name p) None
             then "oldAttrs.buildInputs ++ " else "")
         ++ "[ " ++ join " " tokens ++ " ];" ++ nl)
        (splitlines (block_of self pkgs p))
  /\ ((exists o, In o pkgs /\ _needs_overlay self (name o) (ver o) = true
                 /\ name o = ref_of self q)
      -> In (ref_of self q) tokens)
  /\ ((forall o, In o pkgs -> _needs_overlay self (name o) (ver o) = true ->
                 name o <> ref_of self q)
      -> In ("python-self." ++ ref_of self q) tokens)
  /\ (exists_ (nixpkgs self) (name q) None = false ->
      _needs_overlay self (name q) (ver q) = true ->
      In (name q) tokens).
Proof.
  intros valid Hp Hq Hb Hneeds tokens.
  pose proof (valid_NoDup self pkgs valid) as Hnd.
  assert (In (ref_of self q) (build_refs self pkgs p)) as Hr
    by (apply in_map, deps_of_In; trivial).
  assert ((exists o, In o pkgs /\ _needs_overlay self (name o) (ver o) = true
                     /\ name o = ref_of self q)
          -> In (ref_of self q) tokens) as Hlocal.
  { intros Ho. apply overlay_keys_In in Ho. apply input_tokens_In.
    exists (ref_of self q). auto. }
  split; [now apply generate_ok |].
  split; [now apply overlaid_pkgs_In |].
  split.
  { destruct (valid_pkg self pkgs valid p Hp) as (Hn & Hv & Hk & _ & _).
    apply is_token_no_linebreak in Hk.
    pose proof (build_refs_tokens self pkgs valid p Hp) as Hbt.
    pose proof (prop_build_refs_tokens self pkgs valid p Hp) as Hpt.
    pose proof (input_list_no_linebreak self pkgs _ Hbt) as Hbl.
    pose proof (input_list_no_linebreak self pkgs _ Hpt) as Hpl.
    destruct (input_list_tight (overlay_keys self pkgs) _ Hbt) as [Hs He].
    assert (truthy (input_list (overlay_keys self pkgs)
                               (build_refs self pkgs p)) = true) as Ht.
    { destruct (input_list (overlay_keys self pkgs) (build_refs self pkgs p));
        [| reflexivity].
      rewrite (proj1 He eq_refl) in Hr. contradiction. }
    rewrite (block_of_lines self pkgs valid p Hp). fold tokens.
    fold (input_list (overlay_keys self pkgs) (build_refs self pkgs p)).
    destruct (exists_ (nixpkgs self) (name p) None).
    - rewrite splitlines_unlines_app
        by now apply override_lines_no_linebreak.
      apply in_or_app. left.
      unfold override_lines. rewrite Ht.
      apply in_map_iff. eexists. split; [| right; right; right; now left].
      cbn [append]. now rewrite !append_assoc.
    - rewrite splitlines_unlines by now apply fresh_lines_no_linebreak.
      unfold fresh_lines. rewrite Hs, Ht.
      apply in_map_iff. eexists. split; [| right; right; right; now left].
      cbn [append]. now rewrite !append_assoc. }
  split; [exact Hlocal | split].
  - intros Hno. apply input_tokens_In. exists (ref_of self q).
    split; [exact Hr | right]. split; [| reflexivity].
    apply not_true_iff_false. rewrite overlay_keys_In.
    intros (o & Ho & Hneeds' & Hn). exact (Hno o Ho Hneeds' Hn).
  - intros Hex Hneeds'.
    assert (ref_of self q = name q) as E
      by (unfold ref_of, _get_ref_name; now rewrite Hex).
    rewrite <- E. apply Hlocal. exists q. auto.
Qed.

(** The block of [X] lists [N], which is built from scratch, by its name,
    and [B], which the overlay overrides under the identifier [idA], with
    the prefix. *)
Lemma build_input_reference_witness :
  valid_input with_checks pkgs_x = true
  /\ In pkg_x pkgs_x /\ In pkg_b pkgs_x
  /\ In (name pkg_b) (build_inputs pkg_x)
  /\ _needs_overlay with_checks (name pkg_x) (ver pkg_x) = true
  /\ generate with_checks pkgs_x = Ok (generated_text with_checks pkgs_x)
  /\ In pkg_x (overlaid_pkgs with_checks pkgs_x)
  /\ In ("          buildInputs = [ N python-self.idA ];" ++ nl)
        (splitlines (block_of with_checks pkgs_x pkg_x))
  /\ In "python-self.idA"
        (input_tokens (overlay_keys with_checks pkgs_x)
                      (build_refs with_checks pkgs_x pkg_x)).
Proof.
  assert (In pkg_x pkgs_x) as Hp by now left.
  assert (In pkg_b pkgs_x) as Hq by (right; now left).
  assert (In (name pkg_b) (build_inputs pkg_x)) as Hb by now left.
  pose proof (build_input_reference with_checks pkgs_x pkg_x pkg_b
                eq_refl Hp Hq Hb eq_refl)
    as (Hg & Hov & Hline & _ & Hprefix & _).
  split; [reflexivity | split; [exact Hp | split; [exact Hq |]]].
  split; [exact Hb | split; [reflexivity | split; [exact Hg |]]].
  split; [exact Hov | split; [exact Hline |]].
  apply Hprefix. intros o [<-|[<-|[<-|[]]]] _; discriminate.
Defined.

(** ** No root package *)

(** X15. On a valid input without a root package, the empty set of
    packages among them, the list of the environment is one line of two
    spaces. *)
Theorem environment_without_roots self (pkgs : list ResolvedPkg) :
  valid_input self pkgs = true ->
  (forall p, In p pkgs -> is_root p = false) ->
  exists pre,
    generate self pkgs
    = Ok (pre
          ++ unlines [ py_ver_nix self ++ ".withPackages (ps: with ps; [";
                       "  ";
                       "])" ]).
Proof.
  intros valid Hno.
  assert (root_pkgs pkgs = []) as E.
  { destruct (root_pkgs pkgs) as [|p l] eqn:E; [reflexivity |].
    assert (In p (root_pkgs pkgs)) as Hp by (rewrite E; now left).
    apply root_pkgs_In in Hp as [Hp Hr]. rewrite (Hno p Hp) in Hr.
    discriminate. }
  exists (_gen_imports self
          ++ (overlays_header self
              ++ join "" (map (block_of self pkgs) (overlaid_pkgs self pkgs))
              ++ overlays_footer)
          ++ unlines [ "in"; "";
                       "with import nixpkgs_src { overlays = [ overlay ]; };";
                       "" ]).
  rewrite (generate_ok self pkgs valid). unfold generated_text.
  rewrite E. cbn [map]. unfold env_lines. cbn [app].
  rewrite !append_assoc. do 4 f_equal.
Qed.

Lemma environment_without_roots_witness :
  valid_input with_checks [] = true
  /\ (forall p : ResolvedPkg, In p [] -> is_root p = false)
  /\ exists pre,
       generate with_checks []
       = Ok (pre
             ++ unlines [ py_ver_nix with_checks
                          ++ ".withPackages (ps: with ps; [";
                          "  ";
                          "])" ]).
Proof.
  assert (forall p : ResolvedPkg, In p [] -> is_root p = false) as Hno
    by (intros p []).
  split; [reflexivity | split; [exact Hno |]].
  exact (environment_without_roots with_checks [] eq_refl Hno).
Defined.

(** ** Records of one name *)

Lemma dict_set_set {V : Type} (d : Dict.t V) (k : string) (v v' : V) :
  Dict.set (Dict.set d k v) k v' = Dict.set d k v'.
Proof.
  induction d as [|[k0 v0] d IH]; simpl.
  - now rewrite String.eqb_refl.
  - destruct (String.eqb k k0) eqn:E; simpl.
    + now rewrite String.eqb_refl.
    + now rewrite E, IH.
Qed.

Lemma dict_of_items_overwritten {V : Type} (a b : list (string * V))
  (k : string) (v v' : V) :
  Dict.of_items (a ++ (k, v) :: (k, v') :: b)
  = Dict.of_items (a ++ (k, v') :: b).
Proof.
  unfold Dict.of_items. rewrite !fold_left_app. cbn [fold_left fst snd].
  now rewrite dict_set_set.
Qed.

(** An element is put into a sorted list just before the first element of
    its key. *)
Lemma insert_sorted_before_equal {A : Type} (key : A -> string) (x y : A)
  (s : list A) :
  StronglySorted (key_le key) s -> In y s -> key y = key x ->
  exists a q b,
    s = (a ++ q :: b)%list /\ key q = key x
    /\ insert_sorted key x s = (a ++ x :: q :: b)%list.
Proof.
  intros Hs. induction Hs as [|z s Hs IH Hz]; [contradiction |].
  intros Hy E. cbn [insert_sorted].
  destruct (String.leb (key x) (key z)) eqn:Hxz.
  - exists [], z, s. repeat split.
    apply String.leb_antisym; [| exact Hxz].
    destruct Hy as [->|Hy]; [rewrite E; apply leb_refl |].
    rewrite Forall_forall in Hz. rewrite <- E. apply (Hz y Hy).
  - destruct Hy as [->|Hy]; [rewrite E, leb_refl in Hxz; discriminate |].
    destruct (IH Hy E) as (a & q & b & -> & Hq & ->).
    exists (z :: a), q, b. repeat split. exact Hq.
Qed.

(** X16. Of two records of one name the later one counts: a record at the
    head of the list of the resolver that has the name of a later record
    changes nothing. *)
Theorem generate_duplicate_name self (p : ResolvedPkg)
  (pkgs : list ResolvedPkg) :
  (exists p', In p' pkgs /\ name p' = name p) ->
  generate self (p :: pkgs) = generate self pkgs.
Proof.
  intros (p' & Hp' & E). unfold generate. f_equal.
  rewrite !(sorted_by_map (fun x : string * ResolvedPkg => name (snd x))).
  cbn [snd]. change (fun x : ResolvedPkg => name x) with name.
  cbn [sorted_by fold_right]. fold (sorted_by name pkgs).
  destruct (insert_sorted_before_equal name p p' (sorted_by name pkgs))
    as (a & q & b & Es & Hq & ->).
  - apply sorted_by_StronglySorted.
  - now apply sorted_by_In.
  - exact E.
  - rewrite Es, !map_app. cbn [map]. rewrite Hq.
    apply dict_of_items_overwritten.
Qed.

Lemma generate_duplicate_name_witness :
  (exists p', In p' [ pkg "D" "1.0" [] [] false; pkg "A" "2.0" [] [] true ]
              /\ name p' = name (pkg "A" "1.0" ["D"] [] false))
  /\ generate with_checks [ pkg "A" "1.0" ["D"] [] false;
                            pkg "D" "1.0" [] [] false;
                            pkg "A" "2.0" [] [] true ]
     = generate with_checks [ pkg "D" "1.0" [] [] false;
                              pkg "A" "2.0" [] [] true ].
Proof.
  assert (exists p', In p' [ pkg "D" "1.0" [] [] false;
                             pkg "A" "2.0" [] [] true ]
                     /\ name p' = name (pkg "A" "1.0" ["D"] [] false)) as H
    by (exists (pkg "A" "2.0" [] [] true); split; [right; now left |
                                                    reflexivity]).
  split; [exact H |].
  exact (generate_duplicate_name with_checks _ _ H).
Defined.

(** ** The strings of the input lists *)

Lemma sorted_nil (l : list string) : sorted l = [] <-> l = [].
Proof.
  split; [| intros ->; reflexivity].
  intros H. apply Permutation_nil. rewrite <- H.
  apply (sorted_by_perm (fun s : string => s)).
Qed.

(** X17. [_gen_build_inputs] and [_gen_prop_build_inputs] are one function.
    Its result is never the empty string, for it always has the space
    between its two parts; it is made of white space only exactly when
    both sets are empty, their elements being tokens.  So it is the
    [strip] of the caller that makes the test for an empty list work. *)
Theorem gen_build_inputs_blank (local nixpkgs : pyset) :
  Forall (fun t => is_token t = true) local ->
  Forall (fun t => is_token t = true) nixpkgs ->
  _gen_prop_build_inputs local nixpkgs = _gen_build_inputs local nixpkgs
  /\ truthy (_gen_build_inputs local nixpkgs) = true
  /\ (strip (_gen_build_inputs local nixpkgs) = ""
      <-> local = [] /\ nixpkgs = []).
Proof.
  intros Hl Hn. split; [reflexivity | split].
  - unfold _gen_build_inputs. now destruct (join " " (sorted local)).
  - assert (Forall (fun t => is_token t = true) (sorted local)) as Hl'.
    { apply Forall_forall. intros t Ht. apply sorted_by_In in Ht.
      rewrite Forall_forall in Hl. now apply Hl. }
    assert (Forall (fun t => is_token t = true)
                   (map (fun b => "python-self." ++ b) (sorted nixpkgs)))
      as Hn'.
    { apply Forall_forall. intros t Ht. apply in_map_iff in Ht as (b & <- & Hb).
      apply sorted_by_In in Hb. rewrite Forall_forall in Hn.
      now apply is_token_prefixed, Hn. }
    unfold _gen_build_inputs. rewrite (strip_joined_tokens _ _ Hl' Hn').
    split.
    + intros E.
      destruct (List.app (sorted local)
                  (map (fun b => "python-self." ++ b) (sorted nixpkgs)))
        as [|t ts] eqn:El.
      * apply app_eq_nil in El as [E1 E2]. apply map_eq_nil in E2.
        now rewrite sorted_nil in E1, E2.
      * destruct (join_tokens_tight " " (t :: ts)) as [Hs _];
          [discriminate | rewrite <- El; now apply Forall_app |].
        rewrite E in Hs. discriminate.
    + intros [-> ->]. reflexivity.
Qed.

Lemma gen_build_inputs_blank_witness :
  Forall (fun t => is_token t = true) ["b"; "a"]
  /\ Forall (fun t => is_token t = true) ["d"; "c"]
  /\ _gen_build_inputs ["b"; "a"] ["d"; "c"]
     = "a b python-self.c python-self.d"
  /\ truthy (_gen_build_inputs [] []) = true
  /\ strip (_gen_build_inputs [] []) = "".
Proof.
  assert (Forall (fun t => is_token t = true) ["b"; "a"]) as H1
    by (repeat constructor).
  assert (Forall (fun t => is_token t = true) ["d"; "c"]) as H2
    by (repeat constructor).
  split; [exact H1 | split; [exact H2 | split; [reflexivity |]]].
  destruct (gen_build_inputs_blank [] [] (Forall_nil _) (Forall_nil _))
    as (_ & Ht & Hs).
  split; [exact Ht | now apply Hs].
Defined.
